(** * Log-forwarding migration and normalization of the cluster-logging-operator

    A shallow embedding of

    - [internal/migrations/migrate_clusterlogforwarder.go]: the default-output
      migration and the LokiStack tenant fan-out, in [Module migrations];
    - the forwarding normalizer of package [k8shandler]
      ([normalizeLogForwarding], [gatherAndVerifyOutputRefs],
      [verifyOutputSecret]), in [Module k8shandler];

    followed by the properties of both.  Go slices are lists, Go loops that
    append to a slice are left folds that append, [map[string]bool] and
    [sets.String] are [gmap string bool] and [gset string], nil-able pointers
    are options. *)

From stdpp Require Import base strings list gmap pretty sorting.

Open Scope string_scope.
Open Scope list_scope.

(** ** Loops shared by both packages *)

(** [for i, x := range l { s = f s i x }], with the index counted from [i0]. *)
Fixpoint range_fold_from {A St : Type} (f : St → nat → A → St) (i0 : nat) (s : St)
    (l : list A) : St :=
  match l with
  | [] => s
  | x :: l' => range_fold_from f (S i0) (f s i0 x) l'
  end.

Definition range_fold {A St : Type} (f : St → nat → A → St) (s : St) (l : list A) : St :=
  range_fold_from f 0 s l.

(** [slices.Contains] of [k8s.io/utils/strings/slices]. *)
Definition slices_Contains (l : list string) (s : string) : bool :=
  bool_decide (s ∈ l).

Module migrations.

(** ** Data model of package [loggingv1], as far as the migration reads it *)

(** Modelled from the spec: the string constants of [loggingv1] and
    [constants] are declared outside [src/]; the reserved names are the ones
    the spec spells out ([default], [application], [infrastructure], [audit]),
    the others are the values of the operator's constant tables. *)
Definition OutputNameDefault : string := "default".
Definition InputNameApplication : string := "application".
Definition InputNameInfrastructure : string := "infrastructure".
Definition InputNameAudit : string := "audit".
Definition OutputTypeElasticsearch : string := "elasticsearch".
Definition OutputTypeLoki : string := "loki".
Definition LogStoreTypeElasticsearch : string := "elasticsearch".
Definition LogStoreTypeLokiStack : string := "lokistack".
Definition OpenshiftNS : string := "openshift-logging".
Definition LogStoreURL : string := "https://elasticsearch:9200".
Definition CollectorSecretName : string := "collector".

(** [loggingv1.ReservedInputNames], a [sets.String]. *)
Definition ReservedInputNames : gset string :=
  {[ InputNameApplication; InputNameInfrastructure; InputNameAudit ]}.

(** Modelled from the spec: the struct declarations are outside [src/]; each
    record has the fields the migration reads or writes.  The fields of the
    Elasticsearch tuning block are never inspected by the migration. *)
Record Elasticsearch := mkElasticsearch {
  StructuredTypeKey : string;
  StructuredTypeName : string;
}.

Record OutputSecretSpec := mkOutputSecretSpec { SecretName : string }.

Record OutputDefaults := mkOutputDefaults {
  DefaultsElasticsearch : option Elasticsearch;
}.

Module OutputSpec.
Record t := mk {
  Name : string;
  Type_ : string;
  URL : string;
  Secret : option OutputSecretSpec;
  Elasticsearch : option Elasticsearch;
}.
Definition withElasticsearch (es : option migrations.Elasticsearch) (o : t) : t :=
  mk (Name o) (Type_ o) (URL o) (Secret o) es.
End OutputSpec.

Module PipelineSpec.
Record t := mk {
  Name : string;
  InputRefs : list string;
  OutputRefs : list string;
  Labels : list (string * string);
}.
Definition withName (n : string) (p : t) : t :=
  mk n (InputRefs p) (OutputRefs p) (Labels p).
Definition withInputRefs (l : list string) (p : t) : t :=
  mk (Name p) l (OutputRefs p) (Labels p).
Definition withOutputRefs (l : list string) (p : t) : t :=
  mk (Name p) (InputRefs p) l (Labels p).
End PipelineSpec.

Record Application := mkApplication { Namespaces : list string }.
Record Infrastructure := mkInfrastructure { }.
Record Audit := mkAudit { }.

Module InputSpec.
Record t := mk {
  Name : string;
  Application : option migrations.Application;
  Infrastructure : option migrations.Infrastructure;
  Audit : option migrations.Audit;
}.
End InputSpec.

Record LokiStackStoreSpec := mkLokiStackStoreSpec { LokiStackName : string }.

Record LogStoreSpec := mkLogStoreSpec {
  LogStoreType : string;
  LokiStack : LokiStackStoreSpec;
}.

Record ClusterLogForwarderSpec := mkSpec {
  Inputs : list InputSpec.t;
  Outputs : list OutputSpec.t;
  Pipelines : list PipelineSpec.t;
  OutputDefaultsOf : option OutputDefaults;
}.

Definition withOutputs (l : list OutputSpec.t) (s : ClusterLogForwarderSpec) :=
  mkSpec (Inputs s) l (Pipelines s) (OutputDefaultsOf s).
Definition withPipelines (l : list PipelineSpec.t) (s : ClusterLogForwarderSpec) :=
  mkSpec (Inputs s) (Outputs s) l (OutputDefaultsOf s).

(** Modelled from the spec: [loggingv1.NewRoutes] is outside [src/]; the spec
    describes it as the route index "output name → referencing pipelines".
    Every output reference of every pipeline gets an entry. *)
Record Routes := mkRoutes { ByOutput : gmap string (list PipelineSpec.t) }.

Definition NewRoutes (pipelines : list PipelineSpec.t) : Routes :=
  mkRoutes
    (foldl (λ byOutput p,
        foldl (λ byOutput outRef,
                 <[outRef := default [] (byOutput !! outRef) ++ [p]]> byOutput)
              byOutput (PipelineSpec.OutputRefs p))
      ∅ pipelines).

(** ** The functions of [migrate_clusterlogforwarder.go] *)

Definition NewDefaultOutput (defaults : option OutputDefaults) : OutputSpec.t :=
  let spec :=
    OutputSpec.mk OutputNameDefault OutputTypeElasticsearch LogStoreURL
      (Some (mkOutputSecretSpec CollectorSecretName)) None in
  match defaults with
  | Some d =>
      match DefaultsElasticsearch d with
      | Some es => OutputSpec.withElasticsearch (Some es) spec
      | None => spec
      end
  | None => spec
  end.

(** The loop of [getInputTypeFromName]; [None] when it runs to its end. *)
Fixpoint getInputTypeLoop (inputs : list InputSpec.t) (inputName : string) : option string :=
  match inputs with
  | [] => None
  | input :: rest =>
      if decide (InputSpec.Name input = inputName) then
        if InputSpec.Application input is Some _ then Some InputNameApplication
        else if InputSpec.Infrastructure input is Some _ then Some InputNameInfrastructure
        else if InputSpec.Audit input is Some _ then Some InputNameAudit
        else getInputTypeLoop rest inputName
      else getInputTypeLoop rest inputName
  end.

Definition getInputTypeFromName (spec : ClusterLogForwarderSpec) (inputName : string) : string :=
  if decide (inputName ∈ ReservedInputNames) then inputName
  else default "" (getInputTypeLoop (Inputs spec) inputName).

Definition lokiStackOutput (inputName : string) : string :=
  if decide (inputName = InputNameApplication) then OutputNameDefault +:+ "-loki-apps"
  else if decide (inputName = InputNameInfrastructure) then OutputNameDefault +:+ "-loki-infra"
  else if decide (inputName = InputNameAudit) then OutputNameDefault +:+ "-loki-audit"
  else OutputNameDefault +:+ "-" +:+ inputName.

Definition LokiStackGatewayService (logStore : option LogStoreSpec) : string :=
  match logStore with
  | None => ""
  | Some ls =>
      if decide (LokiStackName (LokiStack ls) = "") then ""
      else LokiStackName (LokiStack ls) +:+ "-gateway-http"
  end.

Definition LokiStackURL (logStore : option LogStoreSpec) (namespace tenant : string) : string :=
  let service := LokiStackGatewayService logStore in
  if decide (service = "") then ""
  else if decide (tenant ∉ ReservedInputNames) then ""
  else "https://" +:+ service +:+ "." +:+ namespace +:+ ".svc:8080/api/logs/v1/" +:+ tenant.

(** The inner loop over [pOut.OutputRefs]: the slice of the copy is updated
    in place at the index of each reserved-default reference. *)
Definition rewriteOutputRefs (input : string) (refs : list string) : list string :=
  range_fold
    (λ refs' i output,
       if decide (output ≠ OutputNameDefault) then refs'
       else <[i := lokiStackOutput input]> refs')
    refs refs.

(** One iteration of [for i, input := range p.InputRefs]: the clone [*pOut]. *)
Definition clonePipeline (p : PipelineSpec.t) (i : nat) (input : string) : PipelineSpec.t :=
  let pOut := PipelineSpec.withInputRefs [input] p in
  let pOut :=
    PipelineSpec.withOutputRefs
      (rewriteOutputRefs input (PipelineSpec.OutputRefs pOut)) pOut in
  if decide (PipelineSpec.Name pOut ≠ "" ∧ 0 < i)
  then PipelineSpec.withName (PipelineSpec.Name pOut +:+ "-" +:+ pretty i) pOut
  else pOut.

(** The first loop of [processPipelinesForLokiStack], over [inPipelines];
    its state is the pair of [needOutput] and [pipelines]. *)
Definition fanOutStep (st : gmap string bool * list PipelineSpec.t) (p : PipelineSpec.t)
    : gmap string bool * list PipelineSpec.t :=
  let '(needOutput, pipelines) := st in
  if negb (slices_Contains (PipelineSpec.OutputRefs p) OutputNameDefault)
  then (needOutput, pipelines ++ [p])
  else
    let needOutput :=
      foldl (λ m i, <[i := true]> m) needOutput (PipelineSpec.InputRefs p) in
    let pipelines :=
      range_fold (λ ps i input, ps ++ [clonePipeline p i input])
        pipelines (PipelineSpec.InputRefs p) in
    (needOutput, pipelines).

(** The order in which [for input := range needOutput] visits the keys.  Go
    leaves it unspecified; the model visits them in the order of
    [map_to_list].  The list is sorted by name right after, so the order only
    shows between outputs of equal name. *)
Definition rangeKeys (needOutput : gmap string bool) : list string :=
  (map_to_list needOutput).*1.

Definition outputNameLe (a b : OutputSpec.t) : Prop :=
  String.le (OutputSpec.Name a) (OutputSpec.Name b).

Global Instance outputNameLe_dec : RelDecision outputNameLe.
Proof. intros a b. unfold outputNameLe. apply _. Defined.

(** [sort.Slice] with [less = strings.Compare(a.Name, b.Name) < 0]: some
    sort by name; a merge sort stands for it. *)
Definition sortByName (outputs : list OutputSpec.t) : list OutputSpec.t :=
  merge_sort outputNameLe outputs.

Definition tenantOutput (logStore : option LogStoreSpec) (namespace : string)
    (spec : ClusterLogForwarderSpec) (input : string) : OutputSpec.t :=
  let tenant := getInputTypeFromName spec input in
  OutputSpec.mk (lokiStackOutput input) OutputTypeLoki
    (LokiStackURL logStore namespace tenant) None None.

Definition processPipelinesForLokiStack (logStore : option LogStoreSpec)
    (namespace : string) (spec : ClusterLogForwarderSpec)
    : list OutputSpec.t * list PipelineSpec.t :=
  let '(needOutput, pipelines) := foldl fanOutStep (∅, []) (Pipelines spec) in
  let outputs :=
    foldl (λ outputs input, outputs ++ [tenantOutput logStore namespace spec input])
      [] (rangeKeys needOutput) in
  (sortByName outputs, pipelines).

(** The replacement loop of [MigrateDefaultOutput]; its state is
    [replaced], [defaultOutput] and [outputs]. *)
Definition replaceStep (st : bool * OutputSpec.t * list OutputSpec.t) (output : OutputSpec.t)
    : bool * OutputSpec.t * list OutputSpec.t :=
  let '(replaced, defaultOutput, outputs) := st in
  if decide (OutputSpec.Name output = OutputNameDefault) then
    let defaultOutput :=
      if OutputSpec.Elasticsearch output is Some es
      then OutputSpec.withElasticsearch (Some es) defaultOutput
      else defaultOutput in
    (true, defaultOutput, outputs ++ [defaultOutput])
  else (replaced, defaultOutput, outputs ++ [output]).

Definition isEmptySpec (spec : ClusterLogForwarderSpec) : bool :=
  bool_decide (length (Pipelines spec) = 0)
  && bool_decide (length (Inputs spec) = 0)
  && bool_decide (length (Outputs spec) = 0)
  && (if OutputDefaultsOf spec is None then true else false).

Definition bootstrapPipeline : PipelineSpec.t :=
  PipelineSpec.mk "" [InputNameApplication; InputNameInfrastructure]
    [OutputNameDefault] [].

Definition MigrateDefaultOutput (spec : ClusterLogForwarderSpec)
    (logStore : option LogStoreSpec) : ClusterLogForwarderSpec :=
  let spec :=
    if isEmptySpec spec then
      match logStore with
      | Some ls =>
          let spec := withPipelines [bootstrapPipeline] spec in
          if decide (LogStoreType ls = LogStoreTypeElasticsearch)
          then withOutputs [NewDefaultOutput None] spec
          else spec
      | None => spec
      end
    else spec in
  let spec :=
    match logStore with
    | Some ls =>
        if decide (LogStoreType ls = LogStoreTypeLokiStack) then
          let '(outputs, pipelines) :=
            processPipelinesForLokiStack logStore OpenshiftNS spec in
          withPipelines pipelines (withOutputs (Outputs spec ++ outputs) spec)
        else spec
    | None => spec
    end in
  let routes := NewRoutes (Pipelines spec) in
  if decide (is_Some (ByOutput routes !! OutputNameDefault)) then
    match logStore with
    | None => spec
    | Some _ =>
        let defaultOutput := NewDefaultOutput (OutputDefaultsOf spec) in
        let '(replaced, defaultOutput, outputs) :=
          foldl replaceStep (false, defaultOutput, []) (Outputs spec) in
        let outputs := if negb replaced then outputs ++ [defaultOutput] else outputs in
        withOutputs outputs spec
    end
  else spec.

Definition MigrateClusterLogForwarderSpec (spec : ClusterLogForwarderSpec)
    (logStore : option LogStoreSpec) : ClusterLogForwarderSpec :=
  MigrateDefaultOutput spec logStore.

End migrations.

Module k8shandler.

(** ** Data model of packages [logforward] (v1alpha1), [logging] and [core] *)

(** Modelled from the spec: the constants of [logforward] and [constants]
    are declared outside [src/]; the values are the ones of the operator's
    constant tables.  The state, condition-type and condition-reason
    constants are string-typed in Go; their values are never compared with
    anything but each other, and they are enumerations here. *)
Definition OutputTypeElasticsearch : string := "elasticsearch".
Definition OutputTypeForward : string := "forward".
Definition OutputTypeSyslog : string := "syslog".
Definition LogSourceTypeApp : string := "logs.app".
Definition LogSourceTypeInfra : string := "logs.infra".
Definition LogSourceTypeAudit : string := "logs.audit".
Definition LogStoreTypeElasticsearch : string := "elasticsearch".
Definition InternalOutputName : string := "clo-default-output-es".
Definition DefaultAppPipelineName : string := "clo-default-app-pipeline".
Definition DefaultInfraPipelineName : string := "clo-default-infra-pipeline".
Definition LogStoreService : string := "elasticsearch.openshift-logging.svc:9200".
Definition CollectorSecretName : string := "fluentd".

Definition ForwardingAnnotation : string :=
  "clusterlogging.openshift.io/logforwardingtechpreview".

Definition outputTypes : gset string :=
  {[ OutputTypeElasticsearch; OutputTypeForward; OutputTypeSyslog ]}.
Definition sourceTypes : gset string :=
  {[ LogSourceTypeApp; LogSourceTypeInfra; LogSourceTypeAudit ]}.

(** The zero value of each Go string type is the constructor [...Unset]. *)
Inductive OutputState := OutputStateUnset | OutputStateAccepted | OutputStateDropped.

Inductive PipelineState :=
  | PipelineStateUnset | PipelineStateAccepted | PipelineStateDegraded
  | PipelineStateDropped.

Inductive LogForwardingState := LogForwardingStateUnset | LogForwardingStateAccepted.
Inductive LogForwardingReason := LogForwardingReasonUnset | LogForwardingReasonName.
Inductive OutputStateReason := OutputStateReasonUnset | OutputStateReasonConditionsMet.
Inductive PipelineStateReason := PipelineStateReasonUnset | PipelineStateReasonConditionsMet.

Global Instance OutputState_eq_dec : EqDecision OutputState.
Proof. solve_decision. Defined.
Global Instance PipelineState_eq_dec : EqDecision PipelineState.
Proof. solve_decision. Defined.

Inductive OutputConditionType :=
  | OutputConditionTypeName | OutputConditionTypeType | OutputConditionTypeEndpoint
  | OutputConditionTypeSecret.

Inductive OutputConditionReason :=
  | OutputConditionReasonMissingName | OutputConditionReasonReservedNameConflict
  | OutputConditionReasonNonUniqueName | OutputConditionReasonMissingType
  | OutputConditionReasonUnrecognizedType | OutputConditionReasonMissingEndpoint
  | OutputConditionReasonMissingSecretName | OutputConditionReasonSecretDoesNotExist
  | OutputConditionReasonSecretMissingSharedKey.

Inductive PipelineConditionType :=
  | PipelineConditionTypeName | PipelineConditionTypeSourceType
  | PipelineConditionTypeOutputRef.

Inductive PipelineConditionReason :=
  | PipelineConditionReasonMissingName | PipelineConditionReasonReservedNameConflict
  | PipelineConditionReasonUniqueName | PipelineConditionReasonMissingSource
  | PipelineConditionReasonUnrecognizedSourceType
  | PipelineConditionReasonUnrecognizedOutputRef | PipelineConditionReasonMissingOutputs.

(** Modelled from the spec: a condition is [{type, reason, message}]. *)
Record OutputCondition := mkOutputCondition {
  OutputCondType : OutputConditionType;
  OutputCondReason : OutputConditionReason;
  OutputCondMessage : string;
}.

Record PipelineCondition := mkPipelineCondition {
  PipelineCondType : PipelineConditionType;
  PipelineCondReason : PipelineConditionReason;
  PipelineCondMessage : string;
}.

Record OutputSecretSpec := mkOutputSecretSpec { SecretName : string }.

Module OutputSpec.
Record t := mk {
  Name : string;
  Type_ : string;
  Endpoint : string;
  Secret : option OutputSecretSpec;
}.
End OutputSpec.

Module PipelineSpec.
Record t := mk {
  Name : string;
  SourceType : string;
  OutputRefs : list string;
}.
Definition withOutputRefs (l : list string) (p : t) : t :=
  mk (Name p) (SourceType p) l.
End PipelineSpec.

Record ForwardingSpec := mkForwardingSpec {
  DisableDefaultForwarding : bool;
  Outputs : list OutputSpec.t;
  Pipelines : list PipelineSpec.t;
}.

(** Modelled from the spec: the status records and their constructors
    ([NewOutputStatusNamed], [NewPipelineStatusNamed], [NewOutputStatus],
    [NewPipelineStatus], [NewForwardingStatus], [AddCondition]) are outside
    [src/].  A status is [{name, state, conditions}] with the reason and
    message its constructor takes, a named constructor
    leaves state and conditions at their zero values, and [AddCondition]
    appends to the ordered sequence of conditions. *)
Module OutputStatus.
Record t := mk {
  Name : string;
  State : OutputState;
  Conditions : list OutputCondition;
  Reason : OutputStateReason;
  Message : string;
}.
Definition withName (n : string) (s : t) : t :=
  mk n (State s) (Conditions s) (Reason s) (Message s).
Definition withState (st : OutputState) (s : t) : t :=
  mk (Name s) st (Conditions s) (Reason s) (Message s).
Definition AddCondition (ty : OutputConditionType) (r : OutputConditionReason)
    (msg : string) (s : t) : t :=
  mk (Name s) (State s) (Conditions s ++ [mkOutputCondition ty r msg]) (Reason s) (Message s).
End OutputStatus.

Module PipelineStatus.
Record t := mk {
  Name : string;
  State : PipelineState;
  Conditions : list PipelineCondition;
  Reason : PipelineStateReason;
  Message : string;
}.
Definition withName (n : string) (s : t) : t :=
  mk n (State s) (Conditions s) (Reason s) (Message s).
Definition withState (st : PipelineState) (s : t) : t :=
  mk (Name s) st (Conditions s) (Reason s) (Message s).
Definition AddCondition (ty : PipelineConditionType) (r : PipelineConditionReason)
    (msg : string) (s : t) : t :=
  mk (Name s) (State s) (Conditions s ++ [mkPipelineCondition ty r msg]) (Reason s) (Message s).
End PipelineStatus.

Definition NewOutputStatusNamed (name : string) : OutputStatus.t :=
  OutputStatus.mk name OutputStateUnset [] OutputStateReasonUnset "".
Definition NewPipelineStatusNamed (name : string) : PipelineStatus.t :=
  PipelineStatus.mk name PipelineStateUnset [] PipelineStateReasonUnset "".
Definition NewOutputStatus (name : string) (st : OutputState) (reason : OutputStateReason)
    (message : string) : OutputStatus.t :=
  OutputStatus.mk name st [] reason message.
Definition NewPipelineStatus (name : string) (st : PipelineState)
    (reason : PipelineStateReason) (message : string) : PipelineStatus.t :=
  PipelineStatus.mk name st [] reason message.

Record ForwardingStatus := mkForwardingStatus {
  StatusState : LogForwardingState;
  StatusReason : LogForwardingReason;
  StatusMessage : string;
  StatusLogSources : list string;
  StatusOutputs : list OutputStatus.t;
  StatusPipelines : list PipelineStatus.t;
}.

Definition NewForwardingStatus (st : LogForwardingState) (reason : LogForwardingReason)
    (message : string) : ForwardingStatus :=
  mkForwardingStatus st reason message [] [] [].
Definition emptyForwardingStatus : ForwardingStatus :=
  mkForwardingStatus LogForwardingStateUnset LogForwardingReasonUnset "" [] [] [].
Definition withStatusLogSources (l : list string) (s : ForwardingStatus) :=
  mkForwardingStatus (StatusState s) (StatusReason s) (StatusMessage s) l
    (StatusOutputs s) (StatusPipelines s).
Definition withStatusOutputs (l : list OutputStatus.t) (s : ForwardingStatus) :=
  mkForwardingStatus (StatusState s) (StatusReason s) (StatusMessage s)
    (StatusLogSources s) l (StatusPipelines s).
Definition withStatusPipelines (l : list PipelineStatus.t) (s : ForwardingStatus) :=
  mkForwardingStatus (StatusState s) (StatusReason s) (StatusMessage s)
    (StatusLogSources s) (StatusOutputs s) l.

(** [core.Secret], reduced to its payload. *)
Record Secret := mkSecret { Data : gmap string (list Byte.byte) }.

(** The two results of [clusterRequest.GetSecret]: the secret pointer and the
    error, which is nil, a not-found error or another (transport) error. *)
Inductive GetError := ErrNotFound | ErrOther.

Definition IsNotFound (err : option GetError) : bool :=
  if err is Some ErrNotFound then true else false.

Record LogStoreSpec := mkLogStoreSpec { LogStoreType : string }.

(** [logging.ClusterLogging], reduced to what the normalizer reads: the
    annotations of its metadata and [Spec.LogStore]. *)
Record ClusterLogging := mkClusterLogging {
  Annotations : gmap string string;
  LogStore : option LogStoreSpec;
}.

(** [logforward.LogForwarding], reduced to its [Status] pointer. *)
Record LogForwarding := mkLogForwarding { Status : option ForwardingStatus }.

Record ClusterLoggingRequest := mkRequest {
  ForwardingRequest : option LogForwarding;
  ForwardingSpecOf : ForwardingSpec;
}.

(** ** The functions of the normalizer *)

Definition isForwardingEnabled (cluster : ClusterLogging) : bool :=
  bool_decide (default "" (Annotations cluster !! ForwardingAnnotation) = "enabled").

Definition verifyOutputSecret (output : OutputSpec.t) (secret : option Secret)
    (status : OutputStatus.t) : OutputStatus.t :=
  match secret with
  | None => status
  | Some sec =>
      if decide (OutputSpec.Type_ output ≠ OutputTypeForward) then status
      else if Data sec !! "shared_key" is Some _ then status
      else OutputStatus.AddCondition OutputConditionTypeSecret
        OutputConditionReasonSecretMissingSharedKey "" status
  end.

Definition indexedName (kind : string) (i : nat) : string :=
  kind +:+ "[" +:+ pretty i +:+ "]".

Section request.

(** The secret lookup of the request, [clusterRequest.GetSecret]. *)
Variable GetSecret : string → option Secret * option GetError.

(** The checks of one iteration of [gatherAndVerifyOutputRefs], up to the
    test on the number of conditions. *)
Definition checkOutput (refs : gset string) (i : nat) (output : OutputSpec.t) : OutputStatus.t :=
  let outStatus := NewOutputStatusNamed (OutputSpec.Name output) in
  let outStatus := OutputStatus.withState OutputStateDropped outStatus in
  let outStatus :=
    if decide (OutputSpec.Name output = "") then
      OutputStatus.AddCondition OutputConditionTypeName OutputConditionReasonMissingName ""
        (OutputStatus.withName (indexedName "output" i) outStatus)
    else outStatus in
  let outStatus :=
    if decide (OutputSpec.Name output = InternalOutputName) then
      OutputStatus.AddCondition OutputConditionTypeName OutputConditionReasonReservedNameConflict ""
        (OutputStatus.withName (indexedName "output" i) outStatus)
    else outStatus in
  let outStatus :=
    if decide (OutputSpec.Name output ∈ refs) then
      OutputStatus.AddCondition OutputConditionTypeName OutputConditionReasonNonUniqueName
        "The output name is not unique among all defined outputs."
        (OutputStatus.withName (indexedName "output" i) outStatus)
    else outStatus in
  let outStatus :=
    if decide (OutputSpec.Type_ output = "") then
      OutputStatus.AddCondition OutputConditionTypeType
        OutputConditionReasonMissingType "" outStatus
    else outStatus in
  let outStatus :=
    if decide (OutputSpec.Type_ output ∉ outputTypes) then
      OutputStatus.AddCondition OutputConditionTypeType
        OutputConditionReasonUnrecognizedType "" outStatus
    else outStatus in
  let outStatus :=
    if decide (OutputSpec.Endpoint output = "") then
      OutputStatus.AddCondition OutputConditionTypeEndpoint
        OutputConditionReasonMissingEndpoint "" outStatus
    else outStatus in
  match OutputSpec.Secret output with
  | None => outStatus
  | Some s =>
      if decide (SecretName s = "") then
        OutputStatus.AddCondition OutputConditionTypeSecret
          OutputConditionReasonMissingSecretName "" outStatus
      else
        let '(secret, err) := GetSecret (SecretName s) in
        let outStatus :=
          if IsNotFound err then
            OutputStatus.AddCondition OutputConditionTypeSecret
              OutputConditionReasonSecretDoesNotExist "" outStatus
          else outStatus in
        verifyOutputSecret output secret outStatus
  end.

(** One iteration of the loop of [gatherAndVerifyOutputRefs]; the state is
    [refs], [outputs] and [status.Outputs]. *)
Definition gatherStep (st : gset string * list OutputSpec.t * list OutputStatus.t)
    (i : nat) (output : OutputSpec.t)
    : gset string * list OutputSpec.t * list OutputStatus.t :=
  let '(refs, outputs, statuses) := st in
  let outStatus := checkOutput refs i output in
  if decide (length (OutputStatus.Conditions outStatus) = 0) then
    (refs ∪ {[ OutputSpec.Name output ]}, outputs ++ [output],
     statuses ++ [OutputStatus.withState OutputStateAccepted outStatus])
  else (refs, outputs, statuses ++ [outStatus]).

Definition gatherAndVerifyOutputRefs (spec : ForwardingSpec) (status : ForwardingStatus)
    : gset string * list OutputSpec.t * ForwardingStatus :=
  let '(refs, outputs, statuses) :=
    range_fold gatherStep (∅, [], StatusOutputs status) (Outputs spec) in
  (refs, outputs, withStatusOutputs statuses status).

(** The name and source checks of one iteration of the pipeline loop. *)
Definition checkPipeline (pipelineNames : gset string) (i : nat) (pipeline : PipelineSpec.t)
    : PipelineStatus.t :=
  let status := NewPipelineStatusNamed (PipelineSpec.Name pipeline) in
  let status :=
    if decide (PipelineSpec.Name pipeline = "") then
      PipelineStatus.AddCondition PipelineConditionTypeName PipelineConditionReasonMissingName ""
        (PipelineStatus.withName (indexedName "pipeline" i) status)
    else status in
  let status :=
    if decide (PipelineSpec.Name pipeline = DefaultAppPipelineName
               ∨ PipelineSpec.Name pipeline = DefaultInfraPipelineName) then
      PipelineStatus.AddCondition PipelineConditionTypeName
        PipelineConditionReasonReservedNameConflict ""
        (PipelineStatus.withName (indexedName "pipeline" i) status)
    else status in
  let status :=
    if decide (PipelineSpec.Name pipeline ∈ pipelineNames) then
      PipelineStatus.AddCondition PipelineConditionTypeName PipelineConditionReasonUniqueName ""
        (PipelineStatus.withName (indexedName "pipeline" i) status)
    else status in
  let status :=
    if decide (PipelineSpec.SourceType pipeline = "") then
      PipelineStatus.AddCondition PipelineConditionTypeSourceType
        PipelineConditionReasonMissingSource "" status
    else status in
  let status :=
    if decide (PipelineSpec.SourceType pipeline ∉ sourceTypes) then
      PipelineStatus.AddCondition PipelineConditionTypeSourceType
        PipelineConditionReasonUnrecognizedSourceType "" status
    else status in
  if decide (0 < length (PipelineStatus.Conditions status))
  then PipelineStatus.withState PipelineStateDropped status
  else status.

(** The loop over [pipeline.OutputRefs]; the state is [newPipeline] and
    [status]. *)
Definition resolveStep (outputRefs : gset string)
    (st : PipelineSpec.t * PipelineStatus.t) (output : string)
    : PipelineSpec.t * PipelineStatus.t :=
  let '(newPipeline, status) := st in
  if decide (output ∈ outputRefs) then
    (PipelineSpec.withOutputRefs (PipelineSpec.OutputRefs newPipeline ++ [output]) newPipeline,
     status)
  else
    (newPipeline,
     PipelineStatus.AddCondition PipelineConditionTypeOutputRef
       PipelineConditionReasonUnrecognizedOutputRef "" status).

Record PipelineLoop := mkPipelineLoop {
  logSources : gset string;
  pipelineNames : gset string;
  normalizedPipelines : list PipelineSpec.t;
  statusPipelines : list PipelineStatus.t;
}.

(** One iteration of the pipeline loop of [normalizeLogForwarding]. *)
Definition pipelineStep (outputRefs : gset string) (st : PipelineLoop)
    (i : nat) (pipeline : PipelineSpec.t) : PipelineLoop :=
  let status := checkPipeline (pipelineNames st) i pipeline in
  if decide (PipelineStatus.State status ≠ PipelineStateDropped) then
    let newPipeline :=
      PipelineSpec.mk (PipelineSpec.Name pipeline) (PipelineSpec.SourceType pipeline) [] in
    let '(newPipeline, status) :=
      foldl (resolveStep outputRefs) (newPipeline, status) (PipelineSpec.OutputRefs pipeline) in
    if decide (0 < length (PipelineSpec.OutputRefs newPipeline)) then
      let status := PipelineStatus.withState PipelineStateAccepted status in
      let status :=
        if decide (length (PipelineSpec.OutputRefs newPipeline)
                   ≠ length (PipelineSpec.OutputRefs pipeline)) then
          PipelineStatus.AddCondition PipelineConditionTypeOutputRef
            PipelineConditionReasonMissingOutputs ""
            (PipelineStatus.withState PipelineStateDegraded status)
        else status in
      mkPipelineLoop
        (logSources st ∪ {[ PipelineSpec.SourceType pipeline ]})
        (pipelineNames st ∪ {[ PipelineSpec.Name pipeline ]})
        (normalizedPipelines st ++ [newPipeline])
        (statusPipelines st ++ [status])
    else
      let status :=
        PipelineStatus.AddCondition PipelineConditionTypeOutputRef
          PipelineConditionReasonMissingOutputs ""
          (PipelineStatus.withState PipelineStateDropped status) in
      mkPipelineLoop (logSources st) (pipelineNames st) (normalizedPipelines st)
        (statusPipelines st ++ [status])
  else
    mkPipelineLoop (logSources st) (pipelineNames st) (normalizedPipelines st)
      (statusPipelines st ++ [status]).

(** [logSources.List()]: the members in ascending order. *)
Definition sortedList (s : gset string) : list string :=
  merge_sort String.le (elements s).

Definition bootstrapSpec : ForwardingSpec :=
  mkForwardingSpec false
    [ OutputSpec.mk InternalOutputName OutputTypeElasticsearch LogStoreService
        (Some (mkOutputSecretSpec CollectorSecretName)) ]
    [ PipelineSpec.mk DefaultAppPipelineName LogSourceTypeApp [InternalOutputName];
      PipelineSpec.mk DefaultInfraPipelineName LogSourceTypeInfra [InternalOutputName] ].

Definition bootstrapStatus (old : option ForwardingStatus) : ForwardingStatus :=
  let status :=
    default (NewForwardingStatus LogForwardingStateAccepted LogForwardingReasonName "") old in
  let status := withStatusLogSources [LogSourceTypeApp; LogSourceTypeInfra] status in
  let status :=
    withStatusOutputs
      [ NewOutputStatus InternalOutputName OutputStateAccepted OutputStateReasonConditionsMet
          "This is an operator generated output because forwarding is undefined and 'DisableDefaultForwarding' is false" ]
      status in
  withStatusPipelines
    [ NewPipelineStatus DefaultAppPipelineName PipelineStateAccepted PipelineStateReasonConditionsMet
        "This is an operator generated pipeline because forwarding is undefined and 'DisableDefaultForwarding' is false" ]
    status.

(** [normalizeLogForwarding] returns the normalized spec and leaves the
    status in [clusterRequest.ForwardingRequest.Status]; the model returns
    both.  [None] is the nil dereference of [ForwardingRequest] in the
    bootstrap branch. *)
Definition normalizeLogForwarding (clusterRequest : ClusterLoggingRequest)
    (namespace : string) (cluster : ClusterLogging)
    : option (ForwardingSpec * ClusterLoggingRequest) :=
  let spec := ForwardingSpecOf clusterRequest in
  let isElasticsearch :=
    if LogStore cluster is Some ls
    then bool_decide (LogStoreType ls = LogStoreTypeElasticsearch) else false in
  if isElasticsearch && negb (DisableDefaultForwarding spec)
     && bool_decide (length (Pipelines spec) = 0) then
    match ForwardingRequest clusterRequest with
    | None => None
    | Some req =>
        Some (bootstrapSpec,
              mkRequest (Some (mkLogForwarding (Some (bootstrapStatus (Status req))))) spec)
    end
  else
    let normalized := mkForwardingSpec false [] [] in
    if negb (isForwardingEnabled cluster) then Some (normalized, clusterRequest)
    else
      match ForwardingRequest clusterRequest with
      | None => Some (normalized, clusterRequest)
      | Some _ =>
          let status := emptyForwardingStatus in
          let '(outputRefs, outputs, status) := gatherAndVerifyOutputRefs spec status in
          let loop :=
            range_fold (pipelineStep outputRefs)
              (mkPipelineLoop ∅ ∅ [] (StatusPipelines status)) (Pipelines spec) in
          let status := withStatusPipelines (statusPipelines loop) status in
          let status := withStatusLogSources (sortedList (logSources loop)) status in
          Some (mkForwardingSpec (DisableDefaultForwarding spec) outputs
                  (normalizedPipelines loop),
                mkRequest (Some (mkLogForwarding (Some status))) spec)
      end.

End request.

End k8shandler.

(** * Notions used to state the properties *)

Module migrations_spec.
Import migrations.

(** Some pipeline has [outRef] among its output references. *)
Definition refersTo (outRef : string) (pipelines : list PipelineSpec.t) : Prop :=
  ∃ p, p ∈ pipelines ∧ outRef ∈ PipelineSpec.OutputRefs p.

(** What the in-place loop of [rewriteOutputRefs] leaves in each slot. *)
Definition rewriteRef (input output : string) : string :=
  if decide (output = OutputNameDefault) then lokiStackOutput input else output.

(** The clones of one pipeline that refers to the default output. *)
Definition clonesOf (p : PipelineSpec.t) : list PipelineSpec.t :=
  imap (clonePipeline p) (PipelineSpec.InputRefs p).

(** The pipelines one input pipeline contributes to the result. *)
Definition fanOutOf (p : PipelineSpec.t) : list PipelineSpec.t :=
  if decide (OutputNameDefault ∈ PipelineSpec.OutputRefs p) then clonesOf p else [p].

(** The keys one input pipeline adds to [needOutput]. *)
Definition needOutputOf (p : PipelineSpec.t) : list string :=
  if decide (OutputNameDefault ∈ PipelineSpec.OutputRefs p)
  then PipelineSpec.InputRefs p else [].

(** The spec after the empty-spec bootstrap under a configured log store
    that is not Elasticsearch. *)
Definition bootstrapPipelines (spec : ClusterLogForwarderSpec) : ClusterLogForwarderSpec :=
  if isEmptySpec spec then withPipelines [bootstrapPipeline] spec else spec.

(** The map [needOutput] after the first loop of the fan-out. *)
Definition needOutput (spec : ClusterLogForwarderSpec) : gmap string bool :=
  foldl (λ m i, <[i := true]> m) ∅ (Pipelines spec ≫= needOutputOf).

(** The per-tenant output name in the words of the specification. *)
Definition perTenantName (input : string) : string :=
  if decide (input = "application") then "default-loki-apps"
  else if decide (input = "infrastructure") then "default-loki-infra"
  else if decide (input = "audit") then "default-loki-audit"
  else "default-" +:+ input.

(** What the fan-out makes of one pipeline [p]: the group [g] of pipelines
    that take its place. *)
Definition fansOutTo (p : PipelineSpec.t) (g : list PipelineSpec.t) : Prop :=
  if decide (OutputNameDefault ∈ PipelineSpec.OutputRefs p) then
    length g = length (PipelineSpec.InputRefs p)
    ∧ ∀ i input, PipelineSpec.InputRefs p !! i = Some input →
        ∃ c, g !! i = Some c
          ∧ PipelineSpec.InputRefs c = [input]
          ∧ PipelineSpec.OutputRefs c
            = (λ o, if decide (o = OutputNameDefault) then perTenantName input else o)
                <$> PipelineSpec.OutputRefs p
          ∧ PipelineSpec.Labels c = PipelineSpec.Labels p
  else g = [p].

(** The name the clone of index [i] gets from a pipeline named [name]. *)
Definition cloneName (name : string) (i : nat) : string :=
  if decide (i = 0) then name else name +:+ "-" +:+ pretty i.

(** The names in the group [g] that the fan-out makes of a pipeline [p] that
    refers to [default]: the clone of index [i] is named after [p] and [i];
    when [p] has a name, these names are pairwise distinct. *)
Definition clonesNamed (p : PipelineSpec.t) (g : list PipelineSpec.t) : Prop :=
  OutputNameDefault ∈ PipelineSpec.OutputRefs p →
  (PipelineSpec.Name p = "" → ∀ c, c ∈ g → PipelineSpec.Name c = "")
  ∧ (PipelineSpec.Name p ≠ "" →
     (∀ c, g !! 0 = Some c → PipelineSpec.Name c = PipelineSpec.Name p)
     ∧ (∀ i c, g !! i = Some c → 0 < i →
          PipelineSpec.Name c = PipelineSpec.Name p +:+ "-" +:+ pretty i)
     ∧ NoDup (PipelineSpec.Name <$> g)).

(** The tenants of a spec: the inputs of its pipelines that refer to
    [default]. *)
Definition isTenant (spec : ClusterLogForwarderSpec) (k : string) : Prop :=
  ∃ p, p ∈ Pipelines spec
       ∧ OutputNameDefault ∈ PipelineSpec.OutputRefs p
       ∧ k ∈ PipelineSpec.InputRefs p.

(** The replacement loop, read off its three state components. *)
Definition absorb (d o : OutputSpec.t) : OutputSpec.t :=
  if OutputSpec.Elasticsearch o is Some es
  then OutputSpec.withElasticsearch (Some es) d else d.

Fixpoint replacedList (d : OutputSpec.t) (outs : list OutputSpec.t) : list OutputSpec.t :=
  match outs with
  | [] => []
  | o :: outs =>
      if decide (OutputSpec.Name o = OutputNameDefault)
      then absorb d o :: replacedList (absorb d o) outs
      else o :: replacedList d outs
  end.

Fixpoint finalDefault (d : OutputSpec.t) (outs : list OutputSpec.t) : OutputSpec.t :=
  match outs with
  | [] => d
  | o :: outs =>
      if decide (OutputSpec.Name o = OutputNameDefault)
      then finalDefault (absorb d o) outs else finalDefault d outs
  end.

(** Some output of the list is named [default]: the final [replaced]. *)
Definition declaresDefault (outs : list OutputSpec.t) : bool :=
  bool_decide (OutputNameDefault ∈ OutputSpec.Name <$> outs).

(** The output list the resolution writes back. *)
Definition resolveDefault (defaults : option OutputDefaults) (outs : list OutputSpec.t)
    : list OutputSpec.t :=
  let d := NewDefaultOutput defaults in
  if declaresDefault outs then replacedList d outs
  else replacedList d outs ++ [finalDefault d outs].

(** The spec after the empty-spec bootstrap under the log store [ls]. *)
Definition bootstrapFor (ls : LogStoreSpec) (spec : ClusterLogForwarderSpec)
    : ClusterLogForwarderSpec :=
  if isEmptySpec spec then
    let spec := withPipelines [bootstrapPipeline] spec in
    if decide (LogStoreType ls = LogStoreTypeElasticsearch)
    then withOutputs [NewDefaultOutput None] spec else spec
  else spec.

Global Instance refersTo_dec o pipelines : Decision (refersTo o pipelines).
Proof.
  refine (cast_if (decide (Exists (λ p, o ∈ PipelineSpec.OutputRefs p) pipelines)));
    unfold refersTo; rewrite Exists_exists in *; naive_solver.
Defined.

(** How many outputs of a list carry the reserved default name. *)
Definition defaultCount (outs : list OutputSpec.t) : nat :=
  length (filter (λ n, n = OutputNameDefault) (OutputSpec.Name <$> outs)).

(** The fields of the default output that the operator fixes. *)
Definition fixedDefaultFields (o : OutputSpec.t) : Prop :=
  OutputSpec.Type_ o = OutputTypeElasticsearch
  ∧ OutputSpec.URL o = LogStoreURL
  ∧ OutputSpec.Secret o = Some (mkOutputSecretSpec CollectorSecretName).

(** The input names whose per-tenant output name is also the one of a
    reserved input. *)
Definition clashingInputNames : list string := ["loki-apps"; "loki-infra"; "loki-audit"].

(** Some source sub-field of a declared input is populated. *)
Definition populated (input : InputSpec.t) : Prop :=
  is_Some (InputSpec.Application input) ∨ is_Some (InputSpec.Infrastructure input)
  ∨ is_Some (InputSpec.Audit input).

(** The kind of a populated input: the application sub-field goes before
    the infrastructure sub-field, and that one before the audit sub-field. *)
Definition kindOf (input : InputSpec.t) : string :=
  if InputSpec.Application input is Some _ then InputNameApplication
  else if InputSpec.Infrastructure input is Some _ then InputNameInfrastructure
  else InputNameAudit.

(** Stores and specs for the concrete runs. *)
Definition lokiStore (name : string) : LogStoreSpec :=
  mkLogStoreSpec LogStoreTypeLokiStack (mkLokiStackStoreSpec name).

Definition elasticStore : LogStoreSpec :=
  mkLogStoreSpec LogStoreTypeElasticsearch (mkLokiStackStoreSpec "").

(** A named pipeline from two reserved inputs and one undeclared input to a
    user output and [default]. *)
Definition mixedPipeline : PipelineSpec.t :=
  PipelineSpec.mk "mixed" ["application"; "audit"; "my-app"] ["remote"; "default"] [].

Definition mixedSpec : ClusterLogForwarderSpec :=
  mkSpec [] [OutputSpec.mk "remote" "loki" "https://remote:3100" None None]
    [mixedPipeline] None.

End migrations_spec.

Module k8shandler_spec.
Import k8shandler.

(** The verdict the loop reads off a status: no condition at all. *)
Definition unconditioned (st : OutputStatus.t) : bool :=
  bool_decide (OutputStatus.Conditions st = []).

(** The declared outputs whose status, at the same position, has no
    condition. *)
Definition acceptedOf (outputs : list OutputSpec.t) (statuses : list OutputStatus.t)
    : list OutputSpec.t :=
  (filter (λ os, unconditioned os.2 = true) (zip outputs statuses)).*1.

(** The name and source checks, in the words of the specification. *)
Definition passesChecks (names : gset string) (pipeline : PipelineSpec.t) : Prop :=
  PipelineSpec.Name pipeline ≠ ""
  ∧ PipelineSpec.Name pipeline ≠ DefaultAppPipelineName
  ∧ PipelineSpec.Name pipeline ≠ DefaultInfraPipelineName
  ∧ (PipelineSpec.Name pipeline ∉ names)
  ∧ PipelineSpec.SourceType pipeline ≠ ""
  ∧ PipelineSpec.SourceType pipeline ∈ sourceTypes.

(** The order-preserving intersection of declared references with the
    accepted-output names. *)
Definition resolved (outputRefs : gset string) (declared : list string) : list string :=
  filter (λ o, o ∈ outputRefs) declared.

Global Instance passesChecks_dec names pipeline : Decision (passesChecks names pipeline).
Proof. unfold passesChecks. apply _. Defined.

(** The declared pipelines whose status, at the same position, is not
    Dropped. *)
Definition keptOf (pipelines : list PipelineSpec.t) (statuses : list PipelineStatus.t)
    : list PipelineSpec.t :=
  (filter (λ ps, PipelineStatus.State ps.2 ≠ PipelineStateDropped) (zip pipelines statuses)).*1.

(** A declared pipeline with its output references cut down to the
    accepted-output names. *)
Definition withResolved (outputRefs : gset string) (pipeline : PipelineSpec.t)
    : PipelineSpec.t :=
  PipelineSpec.mk (PipelineSpec.Name pipeline) (PipelineSpec.SourceType pipeline)
    (resolved outputRefs (PipelineSpec.OutputRefs pipeline)).

(** The state of a declared pipeline in the words of the specification,
    given the accepted-output names and the names of the pipelines kept
    before it. *)
Definition stateOf (outputRefs names : gset string) (pipeline : PipelineSpec.t)
    : PipelineState :=
  if decide (passesChecks names pipeline) then
    if decide (resolved outputRefs (PipelineSpec.OutputRefs pipeline) = [])
    then PipelineStateDropped
    else if decide (resolved outputRefs (PipelineSpec.OutputRefs pipeline)
                    = PipelineSpec.OutputRefs pipeline)
    then PipelineStateAccepted
    else PipelineStateDegraded
  else PipelineStateDropped.

(** What the secret of an output has to be like for the output to pass:
    named, not reported missing by the lookup, and, for an output of type
    forward whose secret was found, holding a [shared_key]. *)
Definition secretAcceptable (GetSecret : string → option Secret * option GetError)
    (output : OutputSpec.t) : Prop :=
  match OutputSpec.Secret output with
  | None => True
  | Some s =>
      SecretName s ≠ ""
      ∧ IsNotFound (GetSecret (SecretName s)).2 = false
      ∧ (OutputSpec.Type_ output = OutputTypeForward →
         ∀ sec, (GetSecret (SecretName s)).1 = Some sec → is_Some (Data sec !! "shared_key"))
  end.

(** What an output has to be like to pass, given the names accepted so
    far. *)
Definition acceptable (GetSecret : string → option Secret * option GetError)
    (refs : gset string) (output : OutputSpec.t) : Prop :=
  OutputSpec.Name output ≠ ""
  ∧ OutputSpec.Name output ≠ InternalOutputName
  ∧ (OutputSpec.Name output ∉ refs)
  ∧ OutputSpec.Type_ output ∈ outputTypes
  ∧ OutputSpec.Endpoint output ≠ ""
  ∧ secretAcceptable GetSecret output.

(** The list with [x] when [P] holds, and without it otherwise. *)
Definition when {A} (P : Prop) `{Decision P} (x : A) : list A :=
  if decide P then [x] else [].

(** The conditions the name, type and endpoint checks add, in order. *)
Definition nameConditions (refs : gset string) (output : OutputSpec.t)
    : list OutputCondition :=
  when (OutputSpec.Name output = "")
    (mkOutputCondition OutputConditionTypeName OutputConditionReasonMissingName "")
  ++ when (OutputSpec.Name output = InternalOutputName)
       (mkOutputCondition OutputConditionTypeName OutputConditionReasonReservedNameConflict "")
  ++ when (OutputSpec.Name output ∈ refs)
       (mkOutputCondition OutputConditionTypeName OutputConditionReasonNonUniqueName
          "The output name is not unique among all defined outputs.")
  ++ when (OutputSpec.Type_ output = "")
       (mkOutputCondition OutputConditionTypeType OutputConditionReasonMissingType "")
  ++ when (OutputSpec.Type_ output ∉ outputTypes)
       (mkOutputCondition OutputConditionTypeType OutputConditionReasonUnrecognizedType "")
  ++ when (OutputSpec.Endpoint output = "")
       (mkOutputCondition OutputConditionTypeEndpoint OutputConditionReasonMissingEndpoint "").

(** The condition [verifyOutputSecret] adds. *)
Definition sharedKeyConditions (output : OutputSpec.t) (secret : option Secret)
    : list OutputCondition :=
  match secret with
  | None => []
  | Some sec =>
      if decide (OutputSpec.Type_ output ≠ OutputTypeForward) then []
      else if Data sec !! "shared_key" is Some _ then []
      else [mkOutputCondition OutputConditionTypeSecret
              OutputConditionReasonSecretMissingSharedKey ""]
  end.

(** The conditions the secret checks add, in order. *)
Definition secretConditions (GetSecret : string → option Secret * option GetError)
    (output : OutputSpec.t) : list OutputCondition :=
  match OutputSpec.Secret output with
  | None => []
  | Some s =>
      if decide (SecretName s = "") then
        [mkOutputCondition OutputConditionTypeSecret OutputConditionReasonMissingSecretName ""]
      else
        (if IsNotFound (GetSecret (SecretName s)).2
         then [mkOutputCondition OutputConditionTypeSecret
                 OutputConditionReasonSecretDoesNotExist ""]
         else [])
        ++ sharedKeyConditions output (GetSecret (SecretName s)).1
  end.

(** The shape of an output and of a pipeline of a normalized spec. *)
Definition wellFormedOutput (output : OutputSpec.t) : Prop :=
  OutputSpec.Name output ≠ ""
  ∧ OutputSpec.Type_ output ∈ outputTypes
  ∧ OutputSpec.Endpoint output ≠ "".

Definition wellFormedPipeline (pipeline : PipelineSpec.t) : Prop :=
  PipelineSpec.Name pipeline ≠ ""
  ∧ PipelineSpec.SourceType pipeline ∈ sourceTypes
  ∧ PipelineSpec.OutputRefs pipeline ≠ [].

(** The test that opens the bootstrap branch of [normalizeLogForwarding]. *)
Definition bootstraps (cluster : ClusterLogging) (spec : ForwardingSpec) : bool :=
  (if LogStore cluster is Some ls
   then bool_decide (LogStoreType ls = LogStoreTypeElasticsearch) else false)
  && negb (DisableDefaultForwarding spec)
  && bool_decide (length (Pipelines spec) = 0).

(** A request for the concrete runs, in a cluster without secrets. *)
Definition noSecrets (name : string) : option Secret * option GetError :=
  (None, Some ErrNotFound).

Definition enabledCluster : ClusterLogging :=
  mkClusterLogging {[ ForwardingAnnotation := "enabled" ]} None.

(** Two outputs of the same name and a third of an unknown type; a pipeline
    to the first and to an undeclared output, and a pipeline to the third. *)
Definition sampleRequest : ClusterLoggingRequest :=
  mkRequest (Some (mkLogForwarding None))
    (mkForwardingSpec true
       [ OutputSpec.mk "foo" "syslog" "syslog.example:514" None;
         OutputSpec.mk "foo" "syslog" "other.example:514" None;
         OutputSpec.mk "bar" "kafka" "kafka.example:9092" None ]
       [ PipelineSpec.mk "apps" "logs.app" ["foo"; "missing"];
         PipelineSpec.mk "infra" "logs.infra" ["bar"] ]).

(** The run of the normalizer on that request, and its result. *)
Definition sampleResult : ForwardingSpec * ClusterLoggingRequest :=
  Eval vm_compute in
    default (mkForwardingSpec false [] [], sampleRequest)
      (normalizeLogForwarding noSecrets sampleRequest "openshift-logging" enabledCluster).

(** A request without pipelines in a cluster with an Elasticsearch log
    store and forwarding enabled, and the result of its run. *)
Definition elasticCluster : ClusterLogging :=
  mkClusterLogging {[ ForwardingAnnotation := "enabled" ]}
    (Some (mkLogStoreSpec LogStoreTypeElasticsearch)).

Definition bareRequest : ClusterLoggingRequest :=
  mkRequest (Some (mkLogForwarding None)) (mkForwardingSpec false [] []).

Definition bareResult : ForwardingSpec * ClusterLoggingRequest :=
  Eval vm_compute in
    default (mkForwardingSpec false [] [], bareRequest)
      (normalizeLogForwarding noSecrets bareRequest "openshift-logging" elasticCluster).

End k8shandler_spec.

(** * Properties *)

(** ** Loops *)

Section loops.
Context {A St : Type}.

Lemma range_fold_from_app (f : St → nat → A → St) i0 s (l1 l2 : list A) :
  range_fold_from f i0 s (l1 ++ l2)
  = range_fold_from f (i0 + length l1) (range_fold_from f i0 s l1) l2.
Proof.
  revert i0 s. induction l1 as [|x l1 IH]; intros i0 s; simpl.
  - by rewrite Nat.add_0_r.
  - rewrite IH. f_equal. lia.
Qed.

Lemma range_fold_from_ext (f g : St → nat → A → St) i0 s (l : list A) :
  (∀ s i x, f s i x = g s i x) → range_fold_from f i0 s l = range_fold_from g i0 s l.
Proof.
  intros Hfg. revert i0 s. induction l as [|x l IH]; intros i0 s; simpl; [done|].
  by rewrite Hfg, IH.
Qed.

Lemma range_fold_snoc (f : St → nat → A → St) s (l : list A) x :
  range_fold f s (l ++ [x]) = f (range_fold f s l) (length l) x.
Proof. unfold range_fold. by rewrite range_fold_from_app. Qed.

End loops.

(** A loop that appends one element per iteration builds an indexed map. *)
Lemma range_fold_from_append {A B : Type} (g : nat → A → B) i0 (acc : list B) (l : list A) :
  range_fold_from (λ ps i x, ps ++ [g i x]) i0 acc l = acc ++ imap (g ∘ Nat.add i0) l.
Proof.
  revert i0 acc. induction l as [|x l IH]; intros i0 acc; simpl.
  - by rewrite app_nil_r.
  - rewrite IH, <-app_assoc. simpl. rewrite Nat.add_0_r. do 2 f_equal.
    apply imap_ext. intros i y _. simpl. f_equal. lia.
Qed.

Lemma range_fold_append {A B : Type} (g : nat → A → B) (acc : list B) (l : list A) :
  range_fold (λ ps i x, ps ++ [g i x]) acc l = acc ++ imap g l.
Proof.
  unfold range_fold. by rewrite range_fold_from_append.
Qed.

Lemma bind_concat {A B : Type} (f : A → list B) (l : list A) :
  l ≫= f = concat (f <$> l).
Proof. induction l as [|x l IH]; csimpl; [done|]. by rewrite IH. Qed.

Lemma foldl_append {A B : Type} (g : A → B) (acc : list B) (l : list A) :
  foldl (λ ps x, ps ++ [g x]) acc l = acc ++ (g <$> l).
Proof.
  revert acc. induction l as [|x l IH]; intros acc; simpl.
  - by rewrite app_nil_r.
  - by rewrite IH, <-app_assoc.
Qed.

Module migrations_facts.
Import migrations migrations_spec.

(** ** The route index *)

Lemma routes_inner (m : gmap string (list PipelineSpec.t)) p refs o :
  is_Some (foldl (λ byOutput outRef,
             <[outRef := default [] (byOutput !! outRef) ++ [p]]> byOutput) m refs !! o)
  ↔ is_Some (m !! o) ∨ o ∈ refs.
Proof.
  revert m. induction refs as [|r refs IH]; intros m; simpl.
  - rewrite elem_of_nil. tauto.
  - rewrite IH, elem_of_cons. destruct (decide (r = o)) as [->|Hne].
    + rewrite lookup_insert_eq. split; [intros _|intros _; left; eauto].
      right. by left.
    + rewrite lookup_insert_ne by done. naive_solver.
Qed.

Lemma routes_outer (m : gmap string (list PipelineSpec.t)) pipelines o :
  is_Some (foldl (λ byOutput p,
        foldl (λ byOutput outRef,
                 <[outRef := default [] (byOutput !! outRef) ++ [p]]> byOutput)
              byOutput (PipelineSpec.OutputRefs p)) m pipelines !! o)
  ↔ is_Some (m !! o) ∨ refersTo o pipelines.
Proof.
  revert m. induction pipelines as [|p ps IH]; intros m; simpl.
  - unfold refersTo. setoid_rewrite elem_of_nil. naive_solver.
  - rewrite IH, routes_inner. unfold refersTo. setoid_rewrite elem_of_cons.
    naive_solver.
Qed.

Lemma NewRoutes_ByOutput pipelines o :
  is_Some (ByOutput (NewRoutes pipelines) !! o) ↔ refersTo o pipelines.
Proof.
  unfold NewRoutes. simpl. rewrite routes_outer, lookup_empty.
  split; [intros [[? ?]|?]; [done|done]|by right].
Qed.

(** ** Tenant fan-out: the pipelines *)

Lemma rewriteOutputRefs_from input (done_ rest : list string) :
  range_fold_from
    (λ refs' i output,
       if decide (output ≠ OutputNameDefault) then refs'
       else <[i := lokiStackOutput input]> refs')
    (length done_) (done_ ++ rest) rest
  = done_ ++ (rewriteRef input <$> rest).
Proof.
  revert done_. induction rest as [|o rest IH]; intros done_; simpl; [done|].
  assert (Hstep :
    (if decide (o ≠ OutputNameDefault) then done_ ++ o :: rest
     else <[length done_ := lokiStackOutput input]> (done_ ++ o :: rest))
    = (done_ ++ [rewriteRef input o]) ++ rest).
  { unfold rewriteRef. destruct (decide (o = OutputNameDefault)) as [->|Hne].
    - rewrite decide_False by naive_solver.
      replace (length done_) with (length done_ + 0) at 1 by lia.
      rewrite insert_app_r. simpl. by rewrite <-app_assoc.
    - rewrite decide_True by done. by rewrite <-app_assoc. }
  rewrite Hstep. specialize (IH (done_ ++ [rewriteRef input o])).
  rewrite length_app, Nat.add_1_r in IH. rewrite IH. by rewrite <-app_assoc.
Qed.

Lemma rewriteOutputRefs_fmap input refs :
  rewriteOutputRefs input refs = rewriteRef input <$> refs.
Proof. apply (rewriteOutputRefs_from input [] refs). Qed.

Lemma fanOutStep_eq m ps p :
  fanOutStep (m, ps) p
  = (foldl (λ m i, <[i := true]> m) m (needOutputOf p), ps ++ fanOutOf p).
Proof.
  unfold fanOutStep, fanOutOf, needOutputOf, slices_Contains, clonesOf.
  destruct (decide (OutputNameDefault ∈ PipelineSpec.OutputRefs p)) as [Hin|Hnin].
  - rewrite bool_decide_eq_true_2 by done. simpl. by rewrite range_fold_append.
  - rewrite bool_decide_eq_false_2 by done. done.
Qed.

Lemma fanOut_foldl m ps pipelines :
  foldl fanOutStep (m, ps) pipelines
  = (foldl (λ m i, <[i := true]> m) m (pipelines ≫= needOutputOf),
     ps ++ (pipelines ≫= fanOutOf)).
Proof.
  revert m ps. induction pipelines as [|p pipelines IH]; intros m ps.
  - simpl. by rewrite app_nil_r.
  - cbn [foldl]. rewrite !bind_cons, fanOutStep_eq, IH, foldl_app, <-app_assoc. done.
Qed.

Lemma processPipelinesForLokiStack_eq logStore namespace spec :
  processPipelinesForLokiStack logStore namespace spec
  = (sortByName
       (tenantOutput logStore namespace spec
          <$> rangeKeys (foldl (λ m i, <[i := true]> m) ∅ (Pipelines spec ≫= needOutputOf))),
     Pipelines spec ≫= fanOutOf).
Proof.
  unfold processPipelinesForLokiStack. rewrite fanOut_foldl. simpl.
  by rewrite foldl_append.
Qed.

Lemma clonePipeline_InputRefs p i input :
  PipelineSpec.InputRefs (clonePipeline p i input) = [input].
Proof. unfold clonePipeline. by case_decide. Qed.

Lemma clonePipeline_OutputRefs p i input :
  PipelineSpec.OutputRefs (clonePipeline p i input)
  = rewriteRef input <$> PipelineSpec.OutputRefs p.
Proof.
  unfold clonePipeline. case_decide; simpl; apply rewriteOutputRefs_fmap.
Qed.

Lemma clonePipeline_Labels p i input :
  PipelineSpec.Labels (clonePipeline p i input) = PipelineSpec.Labels p.
Proof. unfold clonePipeline. by case_decide. Qed.

Lemma clonePipeline_Name p i input :
  PipelineSpec.Name (clonePipeline p i input)
  = if decide (PipelineSpec.Name p ≠ "" ∧ 0 < i)
    then PipelineSpec.Name p +:+ "-" +:+ pretty i else PipelineSpec.Name p.
Proof. unfold clonePipeline. simpl. by case_decide. Qed.

Lemma lokiStackOutput_not_default input : lokiStackOutput input ≠ OutputNameDefault.
Proof.
  unfold lokiStackOutput. repeat case_decide; discriminate.
Qed.

Lemma fanOutOf_no_default p c :
  c ∈ fanOutOf p → OutputNameDefault ∉ PipelineSpec.OutputRefs c.
Proof.
  unfold fanOutOf. case_decide as Hin.
  - unfold clonesOf. intros (i & input & -> & _)%elem_of_lookup_imap.
    rewrite clonePipeline_OutputRefs. intros (o & Heq & _)%list_elem_of_fmap.
    unfold rewriteRef in Heq. case_decide; [|done].
    by eapply lokiStackOutput_not_default.
  - by intros ->%list_elem_of_singleton.
Qed.

(** ** The migration, store by store *)

Lemma refersTo_fanOut pipelines : ¬ refersTo OutputNameDefault (pipelines ≫= fanOutOf).
Proof.
  intros (c & (p & Hc & _)%list_elem_of_bind & Hdef).
  by eapply fanOutOf_no_default.
Qed.

Lemma MigrateDefaultOutput_nil spec : MigrateDefaultOutput spec None = spec.
Proof.
  unfold MigrateDefaultOutput. destruct (isEmptySpec spec); by case_decide.
Qed.

Lemma MigrateDefaultOutput_lokistack ls spec :
  LogStoreType ls = LogStoreTypeLokiStack →
  MigrateDefaultOutput spec (Some ls)
  = let spec0 := bootstrapPipelines spec in
    withPipelines (Pipelines spec0 ≫= fanOutOf)
      (withOutputs
         (Outputs spec0
          ++ sortByName (tenantOutput (Some ls) OpenshiftNS spec0 <$> rangeKeys (needOutput spec0)))
         spec0).
Proof.
  intros Hty. unfold MigrateDefaultOutput, bootstrapPipelines.
  rewrite Hty. rewrite (decide_False (P := LogStoreTypeLokiStack = LogStoreTypeElasticsearch))
    by discriminate.
  rewrite (decide_True (P := LogStoreTypeLokiStack = LogStoreTypeLokiStack)) by done.
  set (spec0 := if isEmptySpec spec then withPipelines [bootstrapPipeline] spec else spec).
  rewrite processPipelinesForLokiStack_eq. cbn zeta.
  rewrite decide_False; [done|].
  rewrite NewRoutes_ByOutput. simpl. apply refersTo_fanOut.
Qed.

(** ** Tenant fan-out: the claims about the pipelines *)

Lemma lokiStackOutput_perTenantName input : lokiStackOutput input = perTenantName input.
Proof. unfold lokiStackOutput, perTenantName. by repeat case_decide. Qed.

Lemma fansOutTo_fanOutOf p : fansOutTo p (fanOutOf p).
Proof.
  unfold fansOutTo, fanOutOf. case_decide as Hin; [|done].
  unfold clonesOf. split; [by rewrite length_imap|].
  intros i input Hi. exists (clonePipeline p i input).
  rewrite list_lookup_imap, Hi. split; [done|].
  rewrite clonePipeline_InputRefs, clonePipeline_OutputRefs, clonePipeline_Labels.
  by split_and!.
Qed.

(** C5.  Under a LokiStack log store the pipelines of the migrated spec are
    the concatenation, in declaration order, of one group per pipeline of the
    spec (of the bootstrap pipeline when the spec is empty).  The group of a
    pipeline that does not refer to [default] is that pipeline, unchanged.
    The group of a pipeline that refers to [default] has exactly one clone
    per entry of its inputRefs, in order; the clone of an entry has that
    single input, every [default] output reference replaced by the per-tenant
    name ([default-loki-apps], [default-loki-infra], [default-loki-audit] for
    the reserved input names, [default-<input-name>] otherwise) and all other
    output references as they were. *)
Theorem fanOut_one_clone_per_input (ls : LogStoreSpec) (spec : ClusterLogForwarderSpec) :
  LogStoreType ls = LogStoreTypeLokiStack →
  ∃ groups : list (list PipelineSpec.t),
    Pipelines (MigrateClusterLogForwarderSpec spec (Some ls)) = concat groups
    ∧ Forall2 fansOutTo (Pipelines (bootstrapPipelines spec)) groups.
Proof.
  intros Hty. exists (fanOutOf <$> Pipelines (bootstrapPipelines spec)).
  unfold MigrateClusterLogForwarderSpec. rewrite MigrateDefaultOutput_lokistack by done.
  split; [apply bind_concat|]. apply Forall2_fmap_r, Forall_Forall2_diag, Forall_forall.
  intros p _. apply fansOutTo_fanOutOf.
Qed.

Lemma string_app_nil_r (s : string) : s +:+ "" = s.
Proof.
  induction s as [|a s IH]; [done|].
  change (String a (s +:+ "") = String a s). by rewrite IH.
Qed.

Lemma string_app_ne (s t : string) : t ≠ "" → s +:+ t ≠ s.
Proof.
  intros Ht Heq. rewrite <-(string_app_nil_r s) in Heq at 2.
  by apply (inj (String.app s)) in Heq.
Qed.

Lemma cloneName_inj name i j : cloneName name i = cloneName name j → i = j.
Proof.
  unfold cloneName. repeat case_decide; subst; try done.
  - intros Heq. symmetry in Heq. by apply string_app_ne in Heq.
  - intros Heq. by apply string_app_ne in Heq.
  - intros Heq. apply (inj (String.app name)), (inj (String.app "-")) in Heq.
    by apply (inj pretty) in Heq.
Qed.

Lemma clonesOf_Name p i c :
  clonesOf p !! i = Some c →
  PipelineSpec.Name c
  = if decide (PipelineSpec.Name p = "") then "" else cloneName (PipelineSpec.Name p) i.
Proof.
  unfold clonesOf. rewrite list_lookup_imap.
  destruct (PipelineSpec.InputRefs p !! i) as [input|]; [|done].
  intros [= <-]. rewrite clonePipeline_Name. unfold cloneName.
  destruct (decide (PipelineSpec.Name p = "")) as [Hnil|Hname].
  - rewrite decide_False by (by intros [? _]). done.
  - destruct i; [by rewrite decide_False by lia|].
    rewrite decide_True by (split; [done|lia]). by rewrite decide_False.
Qed.

Lemma clonesNamed_fanOutOf p : clonesNamed p (fanOutOf p).
Proof.
  intros Hin. unfold fanOutOf. rewrite decide_True by done. split.
  - intros Hnil c (i & Hc)%list_elem_of_lookup.
    rewrite (clonesOf_Name p i c Hc). by rewrite decide_True.
  - intros Hname.
    assert (Hnames : ∀ i c, clonesOf p !! i = Some c →
              PipelineSpec.Name c = cloneName (PipelineSpec.Name p) i).
    { intros i c Hc. rewrite (clonesOf_Name p i c Hc). by rewrite decide_False. }
    split_and!.
    + intros c Hc. by rewrite (Hnames 0 c Hc).
    + intros i c Hc Hi. rewrite (Hnames i c Hc). unfold cloneName.
      by rewrite decide_False by lia.
    + apply NoDup_alt. intros i j n. rewrite !list_lookup_fmap.
      destruct (clonesOf p !! i) as [ci|] eqn:Hi; [|done].
      destruct (clonesOf p !! j) as [cj|] eqn:Hj; [|done].
      simpl. intros [= <-] [= Heq]. rewrite (Hnames i ci Hi), (Hnames j cj Hj) in Heq.
      symmetry. by eapply cloneName_inj.
Qed.

(** C6.  Under a LokiStack log store the pipelines of the migrated spec are
    the concatenation, in declaration order, of one group per pipeline of the
    spec (of the bootstrap pipeline when the spec is empty), the group being
    the pipeline itself or its clones, one per inputRef.  In the group of a
    pipeline that refers to [default] and has a non-empty name, the first
    clone keeps the name, every later clone, of index [i], is named
    [<name>-<i>], and the names of the clones are pairwise distinct; the
    clones of a pipeline without name have no name either. *)
Theorem fanOut_clone_names (ls : LogStoreSpec) (spec : ClusterLogForwarderSpec) :
  LogStoreType ls = LogStoreTypeLokiStack →
  ∃ groups : list (list PipelineSpec.t),
    Pipelines (MigrateClusterLogForwarderSpec spec (Some ls)) = concat groups
    ∧ Forall2 (λ p g, fansOutTo p g ∧ clonesNamed p g)
        (Pipelines (bootstrapPipelines spec)) groups.
Proof.
  intros Hty. exists (fanOutOf <$> Pipelines (bootstrapPipelines spec)).
  unfold MigrateClusterLogForwarderSpec. rewrite MigrateDefaultOutput_lokistack by done.
  split; [apply bind_concat|]. apply Forall2_fmap_r, Forall_Forall2_diag, Forall_forall.
  intros p _. split; [apply fansOutTo_fanOutOf|apply clonesNamed_fanOutOf].
Qed.

(** ** Tenant fan-out: the synthesized outputs *)

Lemma string_app_assoc (s t u : string) : (s +:+ t) +:+ u = s +:+ t +:+ u.
Proof.
  induction s as [|a s IH]; [done|].
  change (String a ((s +:+ t) +:+ u) = String a (s +:+ t +:+ u)). by rewrite IH.
Qed.

Global Instance outputNameLe_total : Total outputNameLe.
Proof. intros a b. unfold outputNameLe. apply (total String.le). Qed.

Lemma needOutput_lookup (m : gmap string bool) (l : list string) k :
  foldl (λ m i, <[i := true]> m) m l !! k
  = if decide (k ∈ l) then Some true else m !! k.
Proof.
  revert m. induction l as [|i l IH]; intros m; cbn [foldl].
  - rewrite decide_False; [done|]. apply not_elem_of_nil.
  - rewrite IH. destruct (decide (k ∈ l)) as [Hin|Hnin].
    + rewrite decide_True; [done|]. by right.
    + destruct (decide (i = k)) as [->|Hne].
      * rewrite decide_True by by left. by rewrite lookup_insert_eq.
      * rewrite decide_False by (rewrite elem_of_cons; naive_solver).
        by rewrite lookup_insert_ne.
Qed.

Lemma rangeKeys_NoDup (m : gmap string bool) : NoDup (rangeKeys m).
Proof. apply NoDup_fst_map_to_list. Qed.

Lemma elem_of_rangeKeys (m : gmap string bool) k : k ∈ rangeKeys m ↔ is_Some (m !! k).
Proof.
  unfold rangeKeys. rewrite list_elem_of_fmap. split.
  - intros ([k' b] & -> & Hin%elem_of_map_to_list). eauto.
  - intros [b Hb]. exists (k, b). by rewrite elem_of_map_to_list.
Qed.

Lemma elem_of_needOutput spec k : k ∈ rangeKeys (needOutput spec) ↔ isTenant spec k.
Proof.
  rewrite elem_of_rangeKeys. unfold needOutput. rewrite needOutput_lookup, lookup_empty.
  unfold isTenant. case_decide as Hin.
  - split; [intros _|eauto]. apply list_elem_of_bind in Hin as (p & Hk & Hp).
    unfold needOutputOf in Hk. case_decide; [eauto|]. by apply elem_of_nil in Hk.
  - split; [by intros [? ?]|]. intros (p & Hp & Hdef & Hk). destruct Hin.
    apply list_elem_of_bind. exists p. split; [|done].
    unfold needOutputOf. by rewrite decide_True.
Qed.

Lemma isEmptySpec_pipelines spec p : p ∈ Pipelines spec → isEmptySpec spec = false.
Proof.
  unfold isEmptySpec. destruct (Pipelines spec); [by intros ?%elem_of_nil|done].
Qed.

Lemma bootstrapPipelines_Outputs spec : Outputs (bootstrapPipelines spec) = Outputs spec.
Proof. unfold bootstrapPipelines. by destruct (isEmptySpec spec). Qed.

Lemma LokiStackURL_form ls tenant :
  LokiStackName (LokiStack ls) ≠ "" →
  tenant ∈ ReservedInputNames →
  LokiStackURL (Some ls) OpenshiftNS tenant
  = "https://" +:+ LokiStackName (LokiStack ls) +:+ "-gateway-http." +:+ OpenshiftNS
    +:+ ".svc:8080/api/logs/v1/" +:+ tenant.
Proof.
  intros Hname Htenant. unfold LokiStackURL, LokiStackGatewayService.
  rewrite (decide_False (P := LokiStackName (LokiStack ls) = "")) by done.
  rewrite decide_False.
  - rewrite decide_False by (intros H; by apply H).
    by rewrite (string_app_assoc (LokiStackName (LokiStack ls)) "-gateway-http").
  - intros Heq. destruct (LokiStackName (LokiStack ls)); [done|discriminate].
Qed.

Lemma LokiStackURL_unnamed ls tenant :
  LokiStackName (LokiStack ls) = "" → LokiStackURL (Some ls) OpenshiftNS tenant = "".
Proof.
  intros Hname. unfold LokiStackURL, LokiStackGatewayService.
  rewrite Hname. done.
Qed.

Lemma LokiStackURL_unresolved logStore namespace tenant :
  tenant ∉ ReservedInputNames → LokiStackURL logStore namespace tenant = "".
Proof.
  intros Htenant. unfold LokiStackURL. case_decide; [done|]. by rewrite decide_True.
Qed.

(** C8, as the code has it.  Under a LokiStack log store the outputs of the
    migrated spec are the outputs of the spec followed by the synthesized
    per-tenant outputs.  These are, up to order, exactly one output per
    distinct tenant (an input of a pipeline that refers to [default]), named
    by the per-tenant name, of type Loki and without secret; they are in
    ascending order of name; and when the LokiStack name is not empty, the
    URL for a tenant of a built-in kind is
    [https://<lokistack-name>-gateway-http.<namespace>.svc:8080/api/logs/v1/<tenant>],
    while with an empty LokiStack name every URL is empty. *)
Theorem lokistack_outputs_sorted (ls : LogStoreSpec) (spec : ClusterLogForwarderSpec) :
  LogStoreType ls = LogStoreTypeLokiStack →
  let spec0 := bootstrapPipelines spec in
  ∃ (tenants : list string) (synthesized : list OutputSpec.t),
    Outputs (MigrateClusterLogForwarderSpec spec (Some ls)) = Outputs spec ++ synthesized
    ∧ NoDup tenants
    ∧ (∀ k, k ∈ tenants ↔ isTenant spec0 k)
    ∧ synthesized
      ≡ₚ (λ k, OutputSpec.mk (perTenantName k) OutputTypeLoki
                 (LokiStackURL (Some ls) OpenshiftNS (getInputTypeFromName spec0 k))
                 None None) <$> tenants
    ∧ Sorted (λ a b, String.le (OutputSpec.Name a) (OutputSpec.Name b)) synthesized
    ∧ (LokiStackName (LokiStack ls) ≠ "" →
       ∀ tenant, tenant ∈ ReservedInputNames →
         LokiStackURL (Some ls) OpenshiftNS tenant
         = "https://" +:+ LokiStackName (LokiStack ls) +:+ "-gateway-http."
           +:+ OpenshiftNS +:+ ".svc:8080/api/logs/v1/" +:+ tenant)
    ∧ (LokiStackName (LokiStack ls) = "" →
       ∀ tenant, LokiStackURL (Some ls) OpenshiftNS tenant = "").
Proof.
  intros Hty spec0. exists (rangeKeys (needOutput spec0)).
  exists (sortByName (tenantOutput (Some ls) OpenshiftNS spec0 <$> rangeKeys (needOutput spec0))).
  unfold MigrateClusterLogForwarderSpec. rewrite MigrateDefaultOutput_lokistack by done.
  fold spec0. split_and!.
  - simpl. unfold spec0. by rewrite bootstrapPipelines_Outputs.
  - apply rangeKeys_NoDup.
  - apply elem_of_needOutput.
  - unfold sortByName. etrans; [apply merge_sort_Permutation|]. done.
  - apply (Sorted_merge_sort outputNameLe).
  - intros Hname tenant Htenant. by apply LokiStackURL_form.
  - intros Hname tenant. by apply LokiStackURL_unnamed.
Qed.

(** C7, as the code has it.  Under a LokiStack log store, a tenant that does
    not resolve to one of the three built-in kinds is not skipped: the
    output list of the migrated spec holds its synthesized output, named by
    the per-tenant name and of type Loki, with an empty URL. *)
Theorem unresolved_tenant_output (ls : LogStoreSpec) (spec : ClusterLogForwarderSpec)
    (p : PipelineSpec.t) (k : string) :
  LogStoreType ls = LogStoreTypeLokiStack →
  p ∈ Pipelines spec →
  OutputNameDefault ∈ PipelineSpec.OutputRefs p →
  k ∈ PipelineSpec.InputRefs p →
  getInputTypeFromName spec k ∉ ReservedInputNames →
  OutputSpec.mk (perTenantName k) OutputTypeLoki "" None None
  ∈ Outputs (MigrateClusterLogForwarderSpec spec (Some ls)).
Proof.
  intros Hty Hp Hdef Hk Hunres.
  unfold MigrateClusterLogForwarderSpec. rewrite MigrateDefaultOutput_lokistack by done.
  unfold bootstrapPipelines. rewrite (isEmptySpec_pipelines spec p Hp). simpl.
  apply elem_of_app. right. unfold sortByName.
  eapply elem_of_Permutation_proper; [apply merge_sort_Permutation|].
  apply list_elem_of_fmap. exists k. split.
  - unfold tenantOutput. by rewrite LokiStackURL_unresolved.
  - apply elem_of_needOutput. by exists p.
Qed.

(** ** Default-reference resolution *)

Lemma replaceStep_foldl replaced d acc outs :
  foldl replaceStep (replaced, d, acc) outs
  = (replaced || declaresDefault outs, finalDefault d outs, acc ++ replacedList d outs).
Proof.
  revert replaced d acc. induction outs as [|o outs IH]; intros replaced d acc.
  - simpl. by rewrite orb_false_r, app_nil_r.
  - cbn [foldl replacedList finalDefault]. unfold replaceStep at 2. fold (absorb d o).
    unfold declaresDefault. rewrite fmap_cons.
    destruct (decide (OutputSpec.Name o = OutputNameDefault)) as [Heq|Hne].
    + rewrite IH, <-app_assoc. simpl. rewrite (bool_decide_eq_true_2 (_ ∈ _ :: _)).
      * by rewrite orb_true_r.
      * rewrite Heq. by left.
    + rewrite IH, <-app_assoc. simpl. do 3 f_equal.
      apply bool_decide_ext. rewrite elem_of_cons. naive_solver.
Qed.

Lemma MigrateDefaultOutput_single ls spec :
  LogStoreType ls ≠ LogStoreTypeLokiStack →
  MigrateDefaultOutput spec (Some ls)
  = let spec0 := bootstrapFor ls spec in
    if decide (refersTo OutputNameDefault (Pipelines spec0))
    then withOutputs (resolveDefault (OutputDefaultsOf spec0) (Outputs spec0)) spec0
    else spec0.
Proof.
  intros Hty. unfold MigrateDefaultOutput. fold (bootstrapFor ls spec).
  rewrite (decide_False (P := LogStoreType ls = LogStoreTypeLokiStack)) by done.
  cbn zeta. set (spec0 := bootstrapFor ls spec).
  destruct (decide (refersTo OutputNameDefault (Pipelines spec0))) as [Href|Href].
  - rewrite decide_True by by apply NewRoutes_ByOutput.
    rewrite replaceStep_foldl. simpl. unfold resolveDefault.
    by destruct (declaresDefault (Outputs spec0)).
  - rewrite decide_False; [done|]. by rewrite NewRoutes_ByOutput.
Qed.

Lemma absorb_Name d o : OutputSpec.Name (absorb d o) = OutputSpec.Name d.
Proof. unfold absorb. by destruct (OutputSpec.Elasticsearch o). Qed.

Lemma absorb_absorb d o : absorb d (absorb d o) = absorb d o.
Proof.
  unfold absorb. destruct (OutputSpec.Elasticsearch o) as [e|]; simpl; [done|].
  destruct d as [n t u sec [e|]]; done.
Qed.

Lemma absorb_self d : absorb d d = d.
Proof. unfold absorb. destruct d as [n t u sec [e|]]; done. Qed.

Lemma NewDefaultOutput_Name defaults :
  OutputSpec.Name (NewDefaultOutput defaults) = OutputNameDefault.
Proof.
  unfold NewDefaultOutput. destruct defaults as [[[e|]]|]; done.
Qed.

Lemma replacedList_names d outs :
  OutputSpec.Name d = OutputNameDefault →
  OutputSpec.Name <$> replacedList d outs = OutputSpec.Name <$> outs.
Proof.
  revert d. induction outs as [|o outs IH]; intros d Hd; [done|].
  cbn [replacedList]. case_decide as Ho; rewrite !fmap_cons.
  - rewrite IH by by rewrite absorb_Name. rewrite absorb_Name. congruence.
  - by rewrite IH.
Qed.

Lemma replacedList_idem d outs :
  OutputSpec.Name d = OutputNameDefault →
  replacedList d (replacedList d outs) = replacedList d outs.
Proof.
  revert d. induction outs as [|o outs IH]; intros d Hd; [done|].
  cbn [replacedList]. case_decide as Ho; cbn [replacedList].
  - rewrite decide_True by by rewrite absorb_Name.
    rewrite absorb_absorb, IH; [done|]. by rewrite absorb_Name.
  - rewrite decide_False by done. by rewrite IH.
Qed.

Lemma replacedList_undeclared d outs :
  declaresDefault outs = false → replacedList d outs = outs ∧ finalDefault d outs = d.
Proof.
  unfold declaresDefault. intros Hno%bool_decide_eq_false.
  induction outs as [|o outs IH]; [done|].
  rewrite fmap_cons, not_elem_of_cons in Hno. destruct Hno as [Ho Hno].
  cbn [replacedList finalDefault]. rewrite !decide_False by congruence.
  destruct (IH Hno) as [-> ->]. done.
Qed.

Lemma replacedList_app d l1 l2 :
  replacedList d (l1 ++ l2) = replacedList d l1 ++ replacedList (finalDefault d l1) l2.
Proof.
  revert d. induction l1 as [|o l1 IH]; intros d; [done|].
  cbn [app replacedList finalDefault]. case_decide; by rewrite IH.
Qed.

Lemma declaresDefault_replacedList d outs :
  OutputSpec.Name d = OutputNameDefault →
  declaresDefault (replacedList d outs) = declaresDefault outs.
Proof. intros Hd. unfold declaresDefault. by rewrite replacedList_names. Qed.

Lemma resolveDefault_declares defaults outs :
  declaresDefault (resolveDefault defaults outs) = true.
Proof.
  unfold resolveDefault. destruct (declaresDefault outs) eqn:Hdecl.
  - by rewrite declaresDefault_replacedList by apply NewDefaultOutput_Name.
  - destruct (replacedList_undeclared (NewDefaultOutput defaults) outs Hdecl) as [-> ->].
    unfold declaresDefault. apply bool_decide_eq_true_2.
    rewrite fmap_app, elem_of_app. right. simpl. rewrite NewDefaultOutput_Name. by left.
Qed.

Lemma resolveDefault_idem defaults outs :
  resolveDefault defaults (resolveDefault defaults outs) = resolveDefault defaults outs.
Proof.
  pose proof (NewDefaultOutput_Name defaults) as Hd.
  unfold resolveDefault at 1. rewrite resolveDefault_declares.
  unfold resolveDefault. destruct (declaresDefault outs) eqn:Hdecl.
  - by apply replacedList_idem.
  - destruct (replacedList_undeclared (NewDefaultOutput defaults) outs Hdecl) as [-> Hfin].
    rewrite Hfin, replacedList_app.
    destruct (replacedList_undeclared (NewDefaultOutput defaults) outs Hdecl) as [-> ->].
    cbn [replacedList]. rewrite decide_True by done. by rewrite absorb_self.
Qed.

Lemma defaultCount_app l1 l2 : defaultCount (l1 ++ l2) = defaultCount l1 + defaultCount l2.
Proof. unfold defaultCount. by rewrite fmap_app, filter_app, length_app. Qed.

Lemma defaultCount_undeclared outs :
  OutputNameDefault ∉ OutputSpec.Name <$> outs → defaultCount outs = 0.
Proof.
  unfold defaultCount. induction outs as [|o outs IH]; [done|].
  rewrite fmap_cons, not_elem_of_cons. intros [Ho Hno].
  rewrite filter_cons_False by congruence. by apply IH.
Qed.

Lemma defaultCount_resolveDefault defaults outs :
  defaultCount (resolveDefault defaults outs)
  = if declaresDefault outs then defaultCount outs else 1.
Proof.
  pose proof (NewDefaultOutput_Name defaults) as Hd.
  unfold resolveDefault. destruct (declaresDefault outs) eqn:Hdecl.
  - unfold defaultCount. by rewrite replacedList_names.
  - destruct (replacedList_undeclared (NewDefaultOutput defaults) outs Hdecl) as [-> ->].
    rewrite defaultCount_app, defaultCount_undeclared.
    + unfold defaultCount. simpl. by rewrite Hd.
    + by apply bool_decide_eq_false in Hdecl.
Qed.

Lemma defaultCount_synthesized logStore namespace spec keys :
  defaultCount (sortByName (tenantOutput logStore namespace spec <$> keys)) = 0.
Proof.
  apply defaultCount_undeclared. intros (o & Hname & Ho)%list_elem_of_fmap.
  unfold sortByName in Ho.
  eapply elem_of_Permutation_proper in Ho; [|symmetry; apply merge_sort_Permutation].
  apply list_elem_of_fmap in Ho as (k & -> & _). simpl in Hname.
  symmetry in Hname. by apply lokiStackOutput_not_default in Hname.
Qed.

(** C9, as the code has it.  When the output list of the spec holds the
    reserved default name at most once, so does the output list of the
    migrated spec, whatever the log store: a declared default output is
    replaced in place, and one is appended only when none is declared. *)
Theorem default_output_at_most_once (spec : ClusterLogForwarderSpec)
    (logStore : option LogStoreSpec) :
  (defaultCount (Outputs spec) ≤ 1)%nat →
  (defaultCount (Outputs (MigrateClusterLogForwarderSpec spec logStore)) ≤ 1)%nat.
Proof.
  intros Hin. unfold MigrateClusterLogForwarderSpec. destruct logStore as [ls|].
  - destruct (decide (LogStoreType ls = LogStoreTypeLokiStack)) as [Hty|Hty].
    + rewrite MigrateDefaultOutput_lokistack by done. simpl.
      rewrite defaultCount_app, defaultCount_synthesized, bootstrapPipelines_Outputs. lia.
    + rewrite MigrateDefaultOutput_single by done. cbn zeta.
      assert (H0 : (defaultCount (Outputs (bootstrapFor ls spec)) ≤ 1)%nat).
      { unfold bootstrapFor. destruct (isEmptySpec spec); [|done].
        case_decide; [|done]. simpl. done. }
      case_decide; [|done]. simpl. rewrite defaultCount_resolveDefault.
      by destruct (declaresDefault _).
  - by rewrite MigrateDefaultOutput_nil.
Qed.

(** ** Running the migration twice *)

Lemma fanOut_fixed pipelines :
  (∀ c, c ∈ pipelines → OutputNameDefault ∉ PipelineSpec.OutputRefs c) →
  pipelines ≫= fanOutOf = pipelines ∧ pipelines ≫= needOutputOf = [].
Proof.
  induction pipelines as [|c l IH]; intros Hno; [done|].
  rewrite !bind_cons. destruct IH as [-> ->].
  { intros c' Hc'. apply Hno. by right. }
  unfold fanOutOf, needOutputOf. rewrite !decide_False by (apply Hno; by left). done.
Qed.

Lemma bootstrapFor_nonempty ls spec : isEmptySpec (bootstrapFor ls spec) = false.
Proof.
  unfold bootstrapFor. destruct (isEmptySpec spec) eqn:He; [|done]. by case_decide.
Qed.

Lemma bootstrapFor_id ls spec : isEmptySpec spec = false → bootstrapFor ls spec = spec.
Proof. intros He. unfold bootstrapFor. by rewrite He. Qed.

Lemma fanOutOf_nonempty p :
  (OutputNameDefault ∈ PipelineSpec.OutputRefs p → PipelineSpec.InputRefs p ≠ []) →
  fanOutOf p ≠ [].
Proof.
  intros Hp. unfold fanOutOf. case_decide as Hin; [|done].
  unfold clonesOf. specialize (Hp Hin). by destruct (PipelineSpec.InputRefs p).
Qed.

Lemma isEmptySpec_false_intro spec :
  Pipelines spec ≠ [] ∨ Inputs spec ≠ [] ∨ Outputs spec ≠ [] ∨ OutputDefaultsOf spec ≠ None →
  isEmptySpec spec = false.
Proof.
  unfold isEmptySpec.
  destruct (Pipelines spec), (Inputs spec), (Outputs spec), (OutputDefaultsOf spec);
    naive_solver.
Qed.

Lemma isEmptySpec_false_elim spec :
  isEmptySpec spec = false →
  Pipelines spec ≠ [] ∨ Inputs spec ≠ [] ∨ Outputs spec ≠ [] ∨ OutputDefaultsOf spec ≠ None.
Proof.
  unfold isEmptySpec.
  destruct (Pipelines spec), (Inputs spec), (Outputs spec), (OutputDefaultsOf spec);
    naive_solver.
Qed.

Lemma migrate_twice_lokistack ls spec :
  LogStoreType ls = LogStoreTypeLokiStack →
  isEmptySpec (MigrateDefaultOutput spec (Some ls)) = false →
  MigrateDefaultOutput (MigrateDefaultOutput spec (Some ls)) (Some ls)
  = MigrateDefaultOutput spec (Some ls).
Proof.
  intros Hty. rewrite (MigrateDefaultOutput_lokistack ls spec Hty). cbn zeta.
  set (spec0 := bootstrapPipelines spec).
  set (S1 := withPipelines _ _). intros He.
  rewrite MigrateDefaultOutput_lokistack by done. cbn zeta.
  unfold bootstrapPipelines. rewrite He.
  destruct (fanOut_fixed (Pipelines S1)) as [Hfix Hneed].
  { intros c (p & Hc & _)%list_elem_of_bind. by eapply fanOutOf_no_default. }
  unfold needOutput. rewrite Hfix, Hneed. simpl.
  unfold rangeKeys. rewrite map_to_list_empty. simpl.
  unfold sortByName, merge_sort. simpl. rewrite app_nil_r.
  unfold withPipelines, withOutputs. simpl. done.
Qed.

Lemma migrate_twice_single ls spec :
  LogStoreType ls ≠ LogStoreTypeLokiStack →
  MigrateDefaultOutput (MigrateDefaultOutput spec (Some ls)) (Some ls)
  = MigrateDefaultOutput spec (Some ls).
Proof.
  intros Hty. rewrite (MigrateDefaultOutput_single ls spec Hty). cbn zeta.
  pose proof (bootstrapFor_nonempty ls spec) as He.
  set (spec0 := bootstrapFor ls spec) in *.
  destruct (decide (refersTo OutputNameDefault (Pipelines spec0))) as [Href|Href].
  - rewrite MigrateDefaultOutput_single by done. cbn zeta.
    rewrite bootstrapFor_id.
    + simpl. rewrite decide_True by done. unfold withOutputs. simpl.
      by rewrite resolveDefault_idem.
    + apply isEmptySpec_false_intro. left. simpl.
      destruct Href as (p & Hp & _). intros Hnil. rewrite Hnil in Hp.
      by apply elem_of_nil in Hp.
  - rewrite MigrateDefaultOutput_single by done. cbn zeta.
    rewrite bootstrapFor_id by done. by rewrite decide_False.
Qed.

Lemma migrate_lokistack_nonempty ls spec :
  LogStoreType ls = LogStoreTypeLokiStack →
  (∀ p, p ∈ Pipelines spec →
        OutputNameDefault ∈ PipelineSpec.OutputRefs p → PipelineSpec.InputRefs p ≠ []) →
  isEmptySpec (MigrateDefaultOutput spec (Some ls)) = false.
Proof.
  intros Hty Hinputs. rewrite MigrateDefaultOutput_lokistack by done. cbn zeta.
  apply isEmptySpec_false_intro. simpl.
  unfold bootstrapPipelines. destruct (isEmptySpec spec) eqn:He.
  - left. done.
  - apply isEmptySpec_false_elim in He as [Hp|[Hi|[Ho|Hd]]].
    + left. destruct (Pipelines spec) as [|p l] eqn:Hps; [done|].
      rewrite bind_cons. intros [Hnil _]%app_eq_nil. revert Hnil.
      apply fanOutOf_nonempty, Hinputs. by left.
    + right. by left.
    + right. right. left. by destruct (Outputs spec).
    + by do 3 right.
Qed.

(** C10, as the code has it.  For every log store and every spec in which
    each pipeline that refers to [default] has at least one inputRef,
    migrating the migrated spec again, with the same log store, returns it
    unchanged. *)
Theorem migrate_idempotent (spec : ClusterLogForwarderSpec) (logStore : option LogStoreSpec) :
  (∀ p, p ∈ Pipelines spec →
        OutputNameDefault ∈ PipelineSpec.OutputRefs p → PipelineSpec.InputRefs p ≠ []) →
  MigrateClusterLogForwarderSpec (MigrateClusterLogForwarderSpec spec logStore) logStore
  = MigrateClusterLogForwarderSpec spec logStore.
Proof.
  intros Hinputs. unfold MigrateClusterLogForwarderSpec. destruct logStore as [ls|].
  - destruct (decide (LogStoreType ls = LogStoreTypeLokiStack)) as [Hty|Hty].
    + apply migrate_twice_lokistack; [done|]. by apply migrate_lokistack_nonempty.
    + by apply migrate_twice_single.
  - by rewrite !MigrateDefaultOutput_nil.
Qed.

(** The empty-spec bootstrap of the migration under an Elasticsearch log
    store: one pipeline from both sources to [default], and the default
    output. *)
Lemma bootstrap_migration (lokiStack : LokiStackStoreSpec) :
  let migrated :=
    MigrateClusterLogForwarderSpec (mkSpec [] [] [] None)
      (Some (mkLogStoreSpec LogStoreTypeElasticsearch lokiStack)) in
  Pipelines migrated
  = [PipelineSpec.mk "" ["application"; "infrastructure"] ["default"] []]
  ∧ Outputs migrated
    = [OutputSpec.mk "default" OutputTypeElasticsearch LogStoreURL
         (Some (mkOutputSecretSpec CollectorSecretName)) None]
  ∧ Inputs migrated = []
  ∧ OutputDefaultsOf migrated = None.
Proof. by vm_compute. Qed.

(** ** Concrete runs *)

Lemma fanOut_one_clone_per_input_witness :
  LogStoreType (lokiStore "lokistack-dev") = LogStoreTypeLokiStack
  ∧ ∃ groups : list (list PipelineSpec.t),
      Pipelines (MigrateClusterLogForwarderSpec mixedSpec (Some (lokiStore "lokistack-dev")))
      = concat groups
      ∧ Forall2 fansOutTo (Pipelines (bootstrapPipelines mixedSpec)) groups.
Proof.
  split; [reflexivity|].
  apply (fanOut_one_clone_per_input (lokiStore "lokistack-dev") mixedSpec). reflexivity.
Defined.

Lemma fanOut_clone_names_witness :
  LogStoreType (lokiStore "lokistack-dev") = LogStoreTypeLokiStack
  ∧ ∃ groups : list (list PipelineSpec.t),
      Pipelines (MigrateClusterLogForwarderSpec mixedSpec (Some (lokiStore "lokistack-dev")))
      = concat groups
      ∧ Forall2 (λ p g, fansOutTo p g ∧ clonesNamed p g)
          (Pipelines (bootstrapPipelines mixedSpec)) groups.
Proof.
  split; [reflexivity|].
  apply (fanOut_clone_names (lokiStore "lokistack-dev") mixedSpec). reflexivity.
Defined.

Lemma unresolved_tenant_output_witness :
  OutputSpec.mk "default-my-app" "loki" "" None None
  ∈ Outputs (MigrateClusterLogForwarderSpec mixedSpec (Some (lokiStore "lokistack-dev"))).
Proof.
  apply (unresolved_tenant_output (lokiStore "lokistack-dev") mixedSpec mixedPipeline "my-app").
  - reflexivity.
  - left.
  - vm_compute. right. left.
  - vm_compute. do 2 right. left.
  - apply (bool_decide_unpack _). by vm_compute.
Defined.

Lemma lokistack_outputs_sorted_witness :
  ∃ (tenants : list string) (synthesized : list OutputSpec.t),
    Outputs (MigrateClusterLogForwarderSpec mixedSpec (Some (lokiStore "lokistack-dev")))
    = Outputs mixedSpec ++ synthesized
    ∧ NoDup tenants
    ∧ (∀ k, k ∈ tenants ↔ isTenant (bootstrapPipelines mixedSpec) k)
    ∧ synthesized
      ≡ₚ (λ k, OutputSpec.mk (perTenantName k) OutputTypeLoki
                 (LokiStackURL (Some (lokiStore "lokistack-dev")) OpenshiftNS
                    (getInputTypeFromName (bootstrapPipelines mixedSpec) k))
                 None None) <$> tenants
    ∧ Sorted (λ a b, String.le (OutputSpec.Name a) (OutputSpec.Name b)) synthesized
    ∧ (LokiStackName (LokiStack (lokiStore "lokistack-dev")) ≠ "" →
       ∀ tenant, tenant ∈ ReservedInputNames →
         LokiStackURL (Some (lokiStore "lokistack-dev")) OpenshiftNS tenant
         = "https://" +:+ LokiStackName (LokiStack (lokiStore "lokistack-dev"))
           +:+ "-gateway-http." +:+ OpenshiftNS +:+ ".svc:8080/api/logs/v1/" +:+ tenant)
    ∧ (LokiStackName (LokiStack (lokiStore "lokistack-dev")) = "" →
       ∀ tenant, LokiStackURL (Some (lokiStore "lokistack-dev")) OpenshiftNS tenant = "").
Proof.
  apply (lokistack_outputs_sorted (lokiStore "lokistack-dev") mixedSpec). reflexivity.
Defined.

Lemma default_output_at_most_once_witness :
  (defaultCount (Outputs mixedSpec) ≤ 1)%nat
  ∧ (defaultCount (Outputs (MigrateClusterLogForwarderSpec mixedSpec (Some elasticStore))) ≤ 1)%nat.
Proof.
  assert (H : (defaultCount (Outputs mixedSpec) ≤ 1)%nat) by (vm_compute; lia).
  split; [exact H|]. exact (default_output_at_most_once mixedSpec (Some elasticStore) H).
Defined.

Lemma migrate_idempotent_witness :
  MigrateClusterLogForwarderSpec
    (MigrateClusterLogForwarderSpec mixedSpec (Some (lokiStore "lokistack-dev")))
    (Some (lokiStore "lokistack-dev"))
  = MigrateClusterLogForwarderSpec mixedSpec (Some (lokiStore "lokistack-dev")).
Proof.
  apply (migrate_idempotent mixedSpec (Some (lokiStore "lokistack-dev"))).
  intros p [->|[]%elem_of_nil]%elem_of_cons _. discriminate.
Defined.

(** What the migration returns on [mixedSpec] under the three kinds of store. *)
Example mixedSpec_lokistack :
  MigrateClusterLogForwarderSpec mixedSpec (Some (lokiStore "lokistack-dev"))
  = mkSpec []
      [ OutputSpec.mk "remote" "loki" "https://remote:3100" None None;
        OutputSpec.mk "default-loki-apps" "loki"
          "https://lokistack-dev-gateway-http.openshift-logging.svc:8080/api/logs/v1/application"
          None None;
        OutputSpec.mk "default-loki-audit" "loki"
          "https://lokistack-dev-gateway-http.openshift-logging.svc:8080/api/logs/v1/audit"
          None None;
        OutputSpec.mk "default-my-app" "loki" "" None None ]
      [ PipelineSpec.mk "mixed" ["application"] ["remote"; "default-loki-apps"] [];
        PipelineSpec.mk "mixed-1" ["audit"] ["remote"; "default-loki-audit"] [];
        PipelineSpec.mk "mixed-2" ["my-app"] ["remote"; "default-my-app"] [] ]
      None.
Proof. by vm_compute. Qed.

Example mixedSpec_elasticsearch :
  MigrateClusterLogForwarderSpec mixedSpec (Some elasticStore)
  = mkSpec []
      [ OutputSpec.mk "remote" "loki" "https://remote:3100" None None;
        OutputSpec.mk "default" "elasticsearch" LogStoreURL
          (Some (mkOutputSecretSpec CollectorSecretName)) None ]
      [ mixedPipeline ] None.
Proof. by vm_compute. Qed.

(** *** Where the specification and the code part *)

(** A pipeline refers to [default] and there is no log store: the call
    returns its argument, a spec that still routes to [default]; no error is
    returned and nothing is withheld. *)
Lemma no_log_store_counterexample :
  let spec := mkSpec [] [] [PipelineSpec.mk "p" ["application"] ["default"] []] None in
  refersTo OutputNameDefault (Pipelines spec)
  ∧ MigrateClusterLogForwarderSpec spec None = spec
  ∧ Pipelines (MigrateClusterLogForwarderSpec spec None)
    = [PipelineSpec.mk "p" ["application"] ["default"] []].
Proof.
  split; [|by vm_compute].
  exists (PipelineSpec.mk "p" ["application"] ["default"] []). split; by left.
Qed.

(** The empty spec under an Elasticsearch store: one pipeline, not two. *)
Lemma bootstrap_elasticsearch_counterexample :
  length (Pipelines (MigrateClusterLogForwarderSpec (mkSpec [] [] [] None) (Some elasticStore)))
  ≠ 2.
Proof. by vm_compute. Qed.

(** The input [my-app] is neither reserved nor declared, so its tenant does
    not resolve; the migrated spec has an output for it all the same. *)
Lemma unresolved_tenant_counterexample :
  let spec := mkSpec [] [] [PipelineSpec.mk "p" ["my-app"] ["default"] []] None in
  getInputTypeFromName spec "my-app" = ""
  ∧ Outputs (MigrateClusterLogForwarderSpec spec (Some (lokiStore "lokistack-dev")))
    = [OutputSpec.mk "default-my-app" "loki" "" None None].
Proof. by vm_compute. Qed.

(** A LokiStack store with an empty name: the output of the built-in tenant
    [application] has the empty URL, not a gateway URL. *)
Lemma lokistack_url_counterexample :
  let spec := mkSpec [] [] [PipelineSpec.mk "p" ["application"] ["default"] []] None in
  Outputs (MigrateClusterLogForwarderSpec spec (Some (lokiStore "")))
  = [OutputSpec.mk "default-loki-apps" "loki" "" None None]
  ∧ "" ≠ "https://" +:+ "" +:+ "-gateway-http." +:+ OpenshiftNS
         +:+ ".svc:8080/api/logs/v1/" +:+ "application".
Proof. by vm_compute. Qed.

(** Two declared outputs named [default]: both are replaced, both stay. *)
Lemma default_output_twice_counterexample :
  let declared := OutputSpec.mk "default" "elasticsearch" "https://es:9200" None None in
  let spec :=
    mkSpec [] [declared; declared] [PipelineSpec.mk "p" ["application"] ["default"] []] None in
  defaultCount (Outputs (MigrateClusterLogForwarderSpec spec (Some elasticStore))) = 2.
Proof. by vm_compute. Qed.

(** A pipeline that refers to [default] and has no inputRefs: under a
    LokiStack store the first pass leaves the empty spec, which the second
    pass bootstraps. *)
Lemma migrate_twice_counterexample :
  let spec := mkSpec [] [] [PipelineSpec.mk "p" [] ["default"] []] None in
  let store := Some (lokiStore "lokistack-dev") in
  MigrateClusterLogForwarderSpec spec store = mkSpec [] [] [] None
  ∧ MigrateClusterLogForwarderSpec (MigrateClusterLogForwarderSpec spec store) store
    ≠ MigrateClusterLogForwarderSpec spec store.
Proof. by vm_compute. Qed.

End migrations_facts.

Module k8shandler_facts.
Import k8shandler k8shandler_spec.

Section request.
Variable GetSecret : string → option Secret * option GetError.

(** ** The output validator *)

Lemma verifyOutputSecret_State output secret status :
  OutputStatus.State (verifyOutputSecret output secret status) = OutputStatus.State status.
Proof.
  unfold verifyOutputSecret. destruct secret as [sec|]; [|done].
  case_decide; [done|]. by destruct (Data sec !! "shared_key").
Qed.

Lemma checkOutput_State refs i output :
  OutputStatus.State (checkOutput GetSecret refs i output) = OutputStateDropped.
Proof.
  unfold checkOutput. destruct (OutputSpec.Secret output) as [sec|].
  - case_decide.
    + repeat case_decide; done.
    + destruct (GetSecret (SecretName sec)) as [secret err].
      rewrite verifyOutputSecret_State. destruct (IsNotFound err); repeat case_decide; done.
  - repeat case_decide; done.
Qed.

Lemma length_zero_nil {A} (l : list A) : length l = 0 ↔ l = [].
Proof. destruct l; naive_solver. Qed.

(** The state of the loop of [gatherAndVerifyOutputRefs] after the outputs
    [declared], started with the status list [statuses0]. *)
Lemma gather_loop statuses0 declared :
  ∃ statuses : list OutputStatus.t,
    range_fold (gatherStep GetSecret) (∅, [], statuses0) declared
    = (list_to_set (OutputSpec.Name <$> acceptedOf declared statuses),
       acceptedOf declared statuses, statuses0 ++ statuses)
    ∧ length statuses = length declared
    ∧ Forall (λ st, OutputStatus.State st
                    = if unconditioned st then OutputStateAccepted else OutputStateDropped) statuses.
Proof.
  induction declared as [|output declared IH] using rev_ind.
  - exists []. by rewrite app_nil_r.
  - destruct IH as (statuses & Hloop & Hlen & Hstates).
    rewrite range_fold_snoc, Hloop. unfold gatherStep.
    set (refs := list_to_set _). set (outStatus := checkOutput GetSecret refs _ output).
    assert (Hzip : ∀ st, acceptedOf (declared ++ [output]) (statuses ++ [st])
                         = acceptedOf declared statuses
                           ++ (if unconditioned st then [output] else [])).
    { intros st. unfold acceptedOf. rewrite zip_with_app by done.
      rewrite filter_app, fmap_app. f_equal. simpl.
      destruct (unconditioned st) eqn:Hun.
      - by rewrite filter_cons_True.
      - rewrite filter_cons_False; [done|]. simpl. by rewrite Hun. }
    pose proof (checkOutput_State refs (length declared) output) as Hdropped.
    fold outStatus in Hdropped.
    destruct (decide (length (OutputStatus.Conditions outStatus) = 0)) as [Hnone|Hsome].
    + exists (statuses ++ [OutputStatus.withState OutputStateAccepted outStatus]).
      assert (Hun : unconditioned (OutputStatus.withState OutputStateAccepted outStatus) = true).
      { apply bool_decide_eq_true_2. simpl. by apply length_zero_nil. }
      rewrite Hzip, Hun, fmap_app, list_to_set_app_L, app_assoc. simpl.
      split_and!.
      * f_equal. f_equal. subst refs. set_solver.
      * rewrite !length_app. simpl. lia.
      * apply Forall_app. split; [done|]. constructor; [|done]. by rewrite Hun.
    + exists (statuses ++ [outStatus]).
      assert (Hun : unconditioned outStatus = false).
      { apply bool_decide_eq_false_2. by rewrite <-length_zero_nil. }
      rewrite Hzip, Hun, app_nil_r, app_assoc. split_and!.
      * done.
      * rewrite !length_app. simpl. lia.
      * apply Forall_app. split; [done|]. constructor; [|done]. by rewrite Hun.
Qed.

(** C4.  [gatherAndVerifyOutputRefs] appends one status per declared
    output, in order.  The accepted outputs are exactly the declared outputs
    whose status has no condition, unchanged and in declaration order; the
    accepted-name set is the set of their names; a status without condition
    is Accepted and a status with a condition is Dropped. *)
Theorem accepted_iff_no_condition (spec : ForwardingSpec) (status : ForwardingStatus) :
  ∃ statuses : list OutputStatus.t,
    let '(refs, outputs, status') := gatherAndVerifyOutputRefs GetSecret spec status in
    StatusOutputs status' = StatusOutputs status ++ statuses
    ∧ length statuses = length (Outputs spec)
    ∧ outputs
      = (filter (λ os, OutputStatus.Conditions os.2 = []) (zip (Outputs spec) statuses)).*1
    ∧ refs = list_to_set (OutputSpec.Name <$> outputs)
    ∧ Forall (λ st, OutputStatus.State st
                    = if decide (OutputStatus.Conditions st = [])
                      then OutputStateAccepted else OutputStateDropped) statuses.
Proof.
  destruct (gather_loop (StatusOutputs status) (Outputs spec))
    as (statuses & Hloop & Hlen & Hstates).
  exists statuses. unfold gatherAndVerifyOutputRefs. rewrite Hloop. simpl.
  assert (Hacc : acceptedOf (Outputs spec) statuses
    = (filter (λ os, OutputStatus.Conditions os.2 = []) (zip (Outputs spec) statuses)).*1).
  { unfold acceptedOf. f_equal. apply list_filter_iff. intros [o st]. simpl.
    unfold unconditioned. by rewrite bool_decide_eq_true. }
  rewrite <-Hacc. split_and!; try done.
  eapply Forall_impl; [exact Hstates|]. intros st Hst. simpl in Hst. rewrite Hst.
  unfold unconditioned.
  by destruct (decide _); [rewrite bool_decide_eq_true_2|rewrite bool_decide_eq_false_2].
Qed.

(** A lookup that fails with a transport error is read like a lookup that
    returns no secret and no error: the error is dropped and no condition is
    added for it. *)
Lemma transport_error_dropped refs i output :
  checkOutput (λ _, (None, Some ErrOther)) refs i output
  = checkOutput (λ _, (None, None)) refs i output.
Proof.
  unfold checkOutput. destruct (OutputSpec.Secret output) as [sec|]; [|done].
  by case_decide.
Qed.

Lemma transport_error_dropped_gather spec status :
  gatherAndVerifyOutputRefs (λ _, (None, Some ErrOther)) spec status
  = gatherAndVerifyOutputRefs (λ _, (None, None)) spec status.
Proof.
  unfold gatherAndVerifyOutputRefs, range_fold.
  rewrite (range_fold_from_ext (gatherStep (λ _, (None, Some ErrOther)))
             (gatherStep (λ _, (None, None)))); [done|].
  intros [[refs outputs] statuses] i output. unfold gatherStep.
  by rewrite transport_error_dropped.
Qed.

(** ** The pipeline validator *)

Lemma checkPipeline_passes names i pipeline :
  passesChecks names pipeline →
  checkPipeline names i pipeline = NewPipelineStatusNamed (PipelineSpec.Name pipeline).
Proof.
  intros (Hname & Happ & Hinfra & Huniq & Hsrc & Hknown). unfold checkPipeline.
  rewrite (decide_False (P := PipelineSpec.Name pipeline = "")) by done.
  rewrite (decide_False (P := _ ∨ _)) by (by intros [?|?]).
  rewrite (decide_False (P := _ ∈ names)) by done.
  rewrite (decide_False (P := PipelineSpec.SourceType pipeline = "")) by done.
  rewrite (decide_False (P := _ ∉ sourceTypes)) by (by intros H). done.
Qed.

Lemma resolve_loop outputRefs newPipeline status declared :
  ∃ status',
    foldl (resolveStep outputRefs) (newPipeline, status) declared
    = (PipelineSpec.withOutputRefs
         (PipelineSpec.OutputRefs newPipeline ++ resolved outputRefs declared) newPipeline,
       status')
    ∧ PipelineStatus.State status' = PipelineStatus.State status.
Proof.
  revert newPipeline status. induction declared as [|o declared IH]; intros np status.
  - exists status. simpl. rewrite app_nil_r. by destruct np.
  - cbn [foldl]. unfold resolveStep at 2, resolved. case_decide as Hin.
    + destruct (IH (PipelineSpec.withOutputRefs (PipelineSpec.OutputRefs np ++ [o]) np) status)
        as (status' & -> & Hst).
      exists status'. split; [|done]. rewrite filter_cons_True by done.
      simpl. by rewrite <-app_assoc.
    + destruct (IH np (PipelineStatus.AddCondition PipelineConditionTypeOutputRef
                         PipelineConditionReasonUnrecognizedOutputRef "" status)) as (status' & -> & Hst).
      exists status'. split; [|done]. by rewrite filter_cons_False.
Qed.

(** One pass of the pipeline loop over a pipeline that passes the name and
    source checks. *)
Lemma pipelineStep_passes (outputRefs : gset string) (st : PipelineLoop)
    (i : nat) (pipeline : PipelineSpec.t) :
  passesChecks (pipelineNames st) pipeline →
  let kept := filter (λ o, o ∈ outputRefs) (PipelineSpec.OutputRefs pipeline) in
  let st' := pipelineStep outputRefs st i pipeline in
  ∃ status : PipelineStatus.t,
    statusPipelines st' = statusPipelines st ++ [status]
    ∧ if decide (kept = []) then
        PipelineStatus.State status = PipelineStateDropped
        ∧ normalizedPipelines st' = normalizedPipelines st
      else
        normalizedPipelines st'
        = normalizedPipelines st
          ++ [PipelineSpec.mk (PipelineSpec.Name pipeline) (PipelineSpec.SourceType pipeline) kept]
        ∧ PipelineStatus.State status
          = if decide (kept = PipelineSpec.OutputRefs pipeline)
            then PipelineStateAccepted else PipelineStateDegraded.
Proof.
  intros Hpass kept st'. subst st'. unfold pipelineStep.
  rewrite (checkPipeline_passes _ _ _ Hpass). rewrite decide_True by done.
  destruct (resolve_loop outputRefs
              (PipelineSpec.mk (PipelineSpec.Name pipeline) (PipelineSpec.SourceType pipeline) [])
              (NewPipelineStatusNamed (PipelineSpec.Name pipeline))
              (PipelineSpec.OutputRefs pipeline)) as (status' & -> & Hst).
  unfold resolved. fold kept. simpl. destruct (decide (kept = [])) as [Hnil|Hnon].
  - rewrite Hnil. rewrite decide_False by (simpl; lia). eexists. split; [done|]. done.
  - rewrite decide_True by (destruct kept; [done|simpl; lia]).
    eexists. split; [done|]. split; [done|].
    destruct (decide (kept = PipelineSpec.OutputRefs pipeline)) as [Hall|Hlost].
    + rewrite decide_False; [done|]. rewrite Hall. by intros H.
    + rewrite decide_True; [done|]. intros Hlen. apply Hlost.
      subst kept. clear -Hlen. induction (PipelineSpec.OutputRefs pipeline) as [|o l IH]; [done|].
      destruct (decide (o ∈ outputRefs)).
      * rewrite filter_cons_True in * by done. simpl in Hlen. f_equal. apply IH. lia.
      * rewrite filter_cons_False in Hlen by done.
        pose proof (length_filter (λ o, o ∈ outputRefs) l). simpl in Hlen. lia.
Qed.

(** The loop only ever appends to the normalized list and to the status
    list, one status per pipeline. *)
Lemma pipeline_loop_appends outputRefs i st pipelines :
  let st' := range_fold_from (pipelineStep outputRefs) i st pipelines in
  normalizedPipelines st `prefix_of` normalizedPipelines st'
  ∧ statusPipelines st `prefix_of` statusPipelines st'
  ∧ length (statusPipelines st') = length (statusPipelines st) + length pipelines.
Proof.
  revert i st. induction pipelines as [|p l IH]; intros i st; simpl.
  - split_and!; [done|done|lia].
  - destruct (IH (S i) (pipelineStep outputRefs st i p)) as (Hn & Hs & Hlen).
    assert (Hstep :
      normalizedPipelines st `prefix_of` normalizedPipelines (pipelineStep outputRefs st i p)
            ∧ ∃ status, statusPipelines (pipelineStep outputRefs st i p)
                        = statusPipelines st ++ [status]).
    { unfold pipelineStep. case_decide.
      - destruct (foldl _ _ _) as [np status]. case_decide; simpl.
        + split; [by apply prefix_app_r|]. by eexists.
        + split; [done|]. by eexists.
      - simpl. split; [done|]. by eexists. }
    destruct Hstep as [Hn1 [status Hs1]]. split_and!.
    + by etrans.
    + etrans; [|exact Hs]. rewrite Hs1. by apply prefix_app_r.
    + rewrite Hlen, Hs1, length_app. simpl. lia.
Qed.

(** ** The normalizer *)

(** The bootstrap branch: an Elasticsearch log store, default forwarding
    not disabled and no pipeline declared.  The result does not depend on the
    declared outputs; it has the two operator pipelines and the internal
    output. *)
Lemma normalize_bootstrap request namespace cluster ls forwarding :
  LogStore cluster = Some ls →
  LogStoreType ls = LogStoreTypeElasticsearch →
  DisableDefaultForwarding (ForwardingSpecOf request) = false →
  Pipelines (ForwardingSpecOf request) = [] →
  ForwardingRequest request = Some forwarding →
  fst <$> normalizeLogForwarding GetSecret request namespace cluster = Some bootstrapSpec.
Proof.
  intros Hls Hty Hdis Hnil Hreq. unfold normalizeLogForwarding.
  rewrite Hls, Hty, Hdis, Hnil, Hreq. done.
Qed.

(** Every other run with forwarding enabled and a forwarding request: the
    normalized spec has the accepted outputs and what the pipeline loop
    kept. *)
Lemma normalize_general request namespace cluster forwarding :
  (if LogStore cluster is Some ls
   then bool_decide (LogStoreType ls = LogStoreTypeElasticsearch) else false)
  && negb (DisableDefaultForwarding (ForwardingSpecOf request))
  && bool_decide (length (Pipelines (ForwardingSpecOf request)) = 0) = false →
  isForwardingEnabled cluster = true →
  ForwardingRequest request = Some forwarding →
  let '(outputRefs, outputs, status) :=
    gatherAndVerifyOutputRefs GetSecret (ForwardingSpecOf request) emptyForwardingStatus in
  fst <$> normalizeLogForwarding GetSecret request namespace cluster
  = Some (mkForwardingSpec (DisableDefaultForwarding (ForwardingSpecOf request)) outputs
            (normalizedPipelines
               (range_fold (pipelineStep outputRefs)
                  (mkPipelineLoop ∅ ∅ [] (StatusPipelines status))
                  (Pipelines (ForwardingSpecOf request))))).
Proof.
  intros Hgen Hen Hreq. unfold normalizeLogForwarding. rewrite Hgen, Hen, Hreq. simpl.
  by destruct (gatherAndVerifyOutputRefs _ _ _) as [[refs outputs] status].
Qed.

Lemma checkPipeline_fails names i pipeline :
  ¬ passesChecks names pipeline →
  PipelineStatus.State (checkPipeline names i pipeline) = PipelineStateDropped.
Proof.
  intros Hfail. unfold checkPipeline.
  destruct (decide (PipelineSpec.Name pipeline = "")),
    (decide (PipelineSpec.Name pipeline = DefaultAppPipelineName
             ∨ PipelineSpec.Name pipeline = DefaultInfraPipelineName)),
    (decide (PipelineSpec.Name pipeline ∈ names)),
    (decide (PipelineSpec.SourceType pipeline = "")),
    (decide (PipelineSpec.SourceType pipeline ∉ sourceTypes));
    try reflexivity.
  destruct Hfail. unfold passesChecks. split_and!; try done; try tauto.
  by apply dec_stable.
Qed.

Lemma pipelineStep_dropped outputRefs st i pipeline :
  ¬ (passesChecks (pipelineNames st) pipeline
     ∧ resolved outputRefs (PipelineSpec.OutputRefs pipeline) ≠ []) →
  ∃ status,
    pipelineStep outputRefs st i pipeline
    = mkPipelineLoop (logSources st) (pipelineNames st) (normalizedPipelines st)
        (statusPipelines st ++ [status])
    ∧ PipelineStatus.State status = PipelineStateDropped.
Proof.
  intros Hnot. unfold pipelineStep.
  destruct (decide (passesChecks (pipelineNames st) pipeline)) as [Hpass|Hfail].
  - rewrite (checkPipeline_passes _ _ _ Hpass). rewrite decide_True by done.
    destruct (resolve_loop outputRefs
                (PipelineSpec.mk (PipelineSpec.Name pipeline)
                   (PipelineSpec.SourceType pipeline) [])
                (NewPipelineStatusNamed (PipelineSpec.Name pipeline))
                (PipelineSpec.OutputRefs pipeline)) as (status' & -> & Hst).
    simpl. assert (Hnil : resolved outputRefs (PipelineSpec.OutputRefs pipeline) = []).
    { destruct (resolved _ _); [done|]. destruct Hnot. by split. }
    rewrite Hnil. simpl. by eexists.
  - rewrite decide_False.
    + eexists. split; [done|]. by apply checkPipeline_fails.
    + rewrite (checkPipeline_fails _ _ _ Hfail). by intros H.
Qed.

Lemma pipelineStep_kept outputRefs st i pipeline :
  passesChecks (pipelineNames st) pipeline →
  resolved outputRefs (PipelineSpec.OutputRefs pipeline) ≠ [] →
  ∃ status,
    pipelineStep outputRefs st i pipeline
    = mkPipelineLoop (logSources st ∪ {[ PipelineSpec.SourceType pipeline ]})
        (pipelineNames st ∪ {[ PipelineSpec.Name pipeline ]})
        (normalizedPipelines st
         ++ [PipelineSpec.mk (PipelineSpec.Name pipeline) (PipelineSpec.SourceType pipeline)
               (resolved outputRefs (PipelineSpec.OutputRefs pipeline))])
        (statusPipelines st ++ [status])
    ∧ (PipelineStatus.State status = PipelineStateAccepted
       ∨ PipelineStatus.State status = PipelineStateDegraded).
Proof.
  intros Hpass Hkept. unfold pipelineStep.
  rewrite (checkPipeline_passes _ _ _ Hpass). rewrite decide_True by done.
  destruct (resolve_loop outputRefs
              (PipelineSpec.mk (PipelineSpec.Name pipeline)
                 (PipelineSpec.SourceType pipeline) [])
              (NewPipelineStatusNamed (PipelineSpec.Name pipeline))
              (PipelineSpec.OutputRefs pipeline)) as (status' & -> & Hst).
  simpl. rewrite decide_True.
  2:{ destruct (resolved _ _); [done|simpl; lia]. }
  eexists. split; [done|]. case_decide; simpl; by eauto.
Qed.

Lemma pipelineStep_state outputRefs st i pipeline :
  ∃ status,
    PipelineStatus.State status = stateOf outputRefs (pipelineNames st) pipeline
    ∧ pipelineStep outputRefs st i pipeline
      = if decide (PipelineStatus.State status ≠ PipelineStateDropped) then
          mkPipelineLoop (logSources st ∪ {[ PipelineSpec.SourceType pipeline ]})
            (pipelineNames st ∪ {[ PipelineSpec.Name pipeline ]})
            (normalizedPipelines st ++ [withResolved outputRefs pipeline])
            (statusPipelines st ++ [status])
        else
          mkPipelineLoop (logSources st) (pipelineNames st) (normalizedPipelines st)
            (statusPipelines st ++ [status]).
Proof.
  destruct (decide (passesChecks (pipelineNames st) pipeline
                    ∧ resolved outputRefs (PipelineSpec.OutputRefs pipeline) ≠ []))
    as [[Hpass Hkept]|Hnot].
  - destruct (pipelineStep_kept outputRefs st i pipeline Hpass Hkept) as (s1 & Hstep & _).
    destruct (pipelineStep_passes outputRefs st i pipeline Hpass) as (s2 & Hsts & Hcase).
    fold (resolved outputRefs (PipelineSpec.OutputRefs pipeline)) in Hcase.
    rewrite (decide_False (P := resolved _ _ = [])) in Hcase by done.
    destruct Hcase as [_ Hstate]. rewrite Hstep in Hsts. simpl in Hsts.
    apply app_inj_tail in Hsts as [_ <-].
    exists s1. unfold stateOf.
    rewrite (decide_True (P := passesChecks _ _)) by done.
    rewrite (decide_False (P := resolved _ _ = [])) by done.
    split; [done|]. rewrite decide_True; [done|].
    rewrite Hstate. by case_decide.
  - destruct (pipelineStep_dropped outputRefs st i pipeline Hnot) as (s & Hstep & Hst).
    exists s. split.
    + rewrite Hst. unfold stateOf. case_decide as Hpass; [|done].
      rewrite decide_True; [done|].
      destruct (resolved outputRefs (PipelineSpec.OutputRefs pipeline)); [done|].
      destruct Hnot. by split.
    + rewrite decide_False by (by rewrite Hst; intros H). done.
Qed.

(** ** The pipeline loop, all passes *)

Lemma keptOf_snoc declared statuses pipeline status :
  length declared = length statuses →
  keptOf (declared ++ [pipeline]) (statuses ++ [status])
  = keptOf declared statuses
    ++ (if decide (PipelineStatus.State status ≠ PipelineStateDropped)
        then [pipeline] else []).
Proof.
  intros Hlen. unfold keptOf. rewrite zip_with_app by done.
  rewrite filter_app, fmap_app. f_equal. cbn [zip_with].
  case_decide as Hst.
  - by rewrite filter_cons_True.
  - rewrite filter_cons_False; [done|]. simpl. by intros H.
Qed.

(** The state of the pipeline loop after the pipelines [declared], started
    with the status list [statuses0]. *)
Lemma pipeline_loop_states outputRefs statuses0 declared :
  let st := range_fold (pipelineStep outputRefs) (mkPipelineLoop ∅ ∅ [] statuses0) declared in
  ∃ statuses : list PipelineStatus.t,
    statusPipelines st = statuses0 ++ statuses
    ∧ length statuses = length declared
    ∧ normalizedPipelines st = withResolved outputRefs <$> keptOf declared statuses
    ∧ pipelineNames st = list_to_set (PipelineSpec.Name <$> keptOf declared statuses)
    ∧ ∀ i pipeline status,
        declared !! i = Some pipeline → statuses !! i = Some status →
        PipelineStatus.State status
        = stateOf outputRefs
            (list_to_set (PipelineSpec.Name <$> keptOf (take i declared) (take i statuses)))
            pipeline.
Proof.
  induction declared as [|pipeline declared IH] using rev_ind.
  - exists []. simpl. rewrite app_nil_r. split_and!; try done.
  - cbn zeta in *. rewrite range_fold_snoc. set (st := range_fold _ _ declared) in *.
    destruct IH as (statuses & Hsts & Hlen & Hnorm & Hnames & Hstates).
    destruct (pipelineStep_state outputRefs st (length declared) pipeline)
      as (status & Hstate & ->).
    exists (statuses ++ [status]). rewrite keptOf_snoc by done.
    assert (Hall : ∀ i p s,
      (declared ++ [pipeline]) !! i = Some p → (statuses ++ [status]) !! i = Some s →
      PipelineStatus.State s
      = stateOf outputRefs
          (list_to_set (PipelineSpec.Name
             <$> keptOf (take i (declared ++ [pipeline])) (take i (statuses ++ [status]))))
          p).
    { intros i p s Hp Hs. destruct (decide (i < length declared)) as [Hlt|Hge].
      - rewrite lookup_app_l in Hp by lia. rewrite lookup_app_l in Hs by lia.
        rewrite !take_app_le by lia. by apply Hstates.
      - assert (i = length declared) as ->.
        { apply lookup_lt_Some in Hp. rewrite length_app in Hp. simpl in Hp. lia. }
        rewrite list_lookup_middle in Hp by done. injection Hp as <-.
        rewrite list_lookup_middle in Hs by done. injection Hs as <-.
        rewrite take_app_length. rewrite <-Hlen, take_app_length.
        by rewrite <-Hnames. }
    rewrite length_app, (length_app declared). simpl.
    case_decide; simpl; rewrite Hsts, <-app_assoc.
    + rewrite !fmap_app, list_to_set_app_L, Hnorm, Hnames. simpl.
      split_and!; [done|lia|done|set_solver|done].
    + rewrite app_nil_r. split_and!; [done|lia|done|done|done].
Qed.

(** ** The normalized pipeline list *)

Lemma normalize_general_run request namespace cluster forwarding refs outputs status :
  bootstraps cluster (ForwardingSpecOf request) = false →
  isForwardingEnabled cluster = true →
  ForwardingRequest request = Some forwarding →
  gatherAndVerifyOutputRefs GetSecret (ForwardingSpecOf request) emptyForwardingStatus
  = (refs, outputs, status) →
  let loop := range_fold (pipelineStep refs)
                (mkPipelineLoop ∅ ∅ [] (StatusPipelines status))
                (Pipelines (ForwardingSpecOf request)) in
  normalizeLogForwarding GetSecret request namespace cluster
  = Some (mkForwardingSpec (DisableDefaultForwarding (ForwardingSpecOf request)) outputs
            (normalizedPipelines loop),
          mkRequest
            (Some (mkLogForwarding
               (Some (withStatusLogSources (sortedList (logSources loop))
                        (withStatusPipelines (statusPipelines loop) status)))))
            (ForwardingSpecOf request)).
Proof.
  intros Hb Hen Hreq Hgather. unfold bootstraps in Hb.
  unfold normalizeLogForwarding. rewrite Hb, Hen, Hreq, Hgather. done.
Qed.

(** C3.  When the validators run (no bootstrap, forwarding enabled, a
    forwarding resource present), [normalizeLogForwarding] returns a
    normalized spec and leaves one status per declared pipeline, in order.
    With the names of the normalized outputs, which are the accepted-output
    names of [gatherAndVerifyOutputRefs], as the accepted name set: the
    normalized pipeline list holds, in declaration order, exactly the declared
    pipelines whose state is not Dropped, each with its name, its source type
    and, as outputRefs, the order-preserving intersection of its declared
    outputRefs with the accepted name set.  A declared pipeline that passes
    the name and source checks, the names in use being those of the pipelines
    kept before it, is Dropped when that intersection is empty, Accepted when
    the intersection is the whole declared list, and Degraded otherwise; a
    pipeline that fails a check is Dropped. *)
Theorem kept_pipeline_has_resolved_refs (request : ClusterLoggingRequest)
    (namespace : string) (cluster : ClusterLogging) :
  bootstraps cluster (ForwardingSpecOf request) = false →
  isForwardingEnabled cluster = true →
  is_Some (ForwardingRequest request) →
  let declared := Pipelines (ForwardingSpecOf request) in
  ∃ (normalized : ForwardingSpec) (request' : ClusterLoggingRequest)
    (status : ForwardingStatus),
    normalizeLogForwarding GetSecret request namespace cluster = Some (normalized, request')
    ∧ ForwardingRequest request' = Some (mkLogForwarding (Some status))
    ∧ length (StatusPipelines status) = length declared
    ∧ let outputRefs : gset string := list_to_set (OutputSpec.Name <$> Outputs normalized) in
      let statuses := StatusPipelines status in
      (gatherAndVerifyOutputRefs GetSecret (ForwardingSpecOf request) emptyForwardingStatus).1
      = (outputRefs, Outputs normalized)
      ∧ Pipelines normalized = withResolved outputRefs <$> keptOf declared statuses
      ∧ ∀ i pipeline st,
          declared !! i = Some pipeline → statuses !! i = Some st →
          let names : gset string :=
            list_to_set (PipelineSpec.Name <$> keptOf (take i declared) (take i statuses)) in
          PipelineStatus.State st = stateOf outputRefs names pipeline.
Proof.
  intros Hb Hen [forwarding Hreq] declared. subst declared.
  destruct (gatherAndVerifyOutputRefs GetSecret (ForwardingSpecOf request)
              emptyForwardingStatus) as [[refs outputs] status] eqn:Hgather.
  assert (Hrefs : refs = list_to_set (OutputSpec.Name <$> outputs)
                  ∧ StatusPipelines status = []).
  { revert Hgather. unfold gatherAndVerifyOutputRefs.
    destruct (gather_loop (StatusOutputs emptyForwardingStatus)
                (Outputs (ForwardingSpecOf request))) as (ostatuses & -> & _ & _).
    by intros [= <- <- <-]. }
  destruct Hrefs as [Hrefs Hnone].
  rewrite (normalize_general_run request namespace cluster forwarding refs outputs status)
    by done.
  destruct (pipeline_loop_states refs (StatusPipelines status)
              (Pipelines (ForwardingSpecOf request)))
    as (statuses & Hsts & Hlen & Hnorm & _ & Hstates).
  eexists _, _, _. split; [done|]. split; [done|]. simpl.
  rewrite <-Hrefs, Hsts. rewrite Hnone in Hnorm |- *. by split_and!.
Qed.

End request.

(** ** Concrete runs *)

Example sampleRequest_normalized :
  fst <$> normalizeLogForwarding noSecrets sampleRequest "openshift-logging" enabledCluster
  = Some (mkForwardingSpec true
            [ OutputSpec.mk "foo" "syslog" "syslog.example:514" None ]
            [ PipelineSpec.mk "apps" "logs.app" ["foo"] ]).
Proof. by vm_compute. Qed.

Example sampleRequest_states :
  (λ r, (OutputStatus.State <$> StatusOutputs r, PipelineStatus.State <$> StatusPipelines r))
    <$> (normalizeLogForwarding noSecrets sampleRequest "openshift-logging" enabledCluster
         ≫= λ r, ForwardingRequest r.2 ≫= Status)
  = Some ([OutputStateAccepted; OutputStateDropped; OutputStateDropped],
          [PipelineStateDegraded; PipelineStateDropped]).
Proof. by vm_compute. Qed.

Lemma kept_pipeline_has_resolved_refs_witness :
  let declared := Pipelines (ForwardingSpecOf sampleRequest) in
  ∃ (normalized : ForwardingSpec) (request' : ClusterLoggingRequest)
    (status : ForwardingStatus),
    normalizeLogForwarding noSecrets sampleRequest "openshift-logging" enabledCluster
    = Some (normalized, request')
    ∧ ForwardingRequest request' = Some (mkLogForwarding (Some status))
    ∧ length (StatusPipelines status) = length declared
    ∧ let outputRefs : gset string := list_to_set (OutputSpec.Name <$> Outputs normalized) in
      let statuses := StatusPipelines status in
      (gatherAndVerifyOutputRefs noSecrets (ForwardingSpecOf sampleRequest)
         emptyForwardingStatus).1
      = (outputRefs, Outputs normalized)
      ∧ Pipelines normalized = withResolved outputRefs <$> keptOf declared statuses
      ∧ ∀ i pipeline st,
          declared !! i = Some pipeline → statuses !! i = Some st →
          let names : gset string :=
            list_to_set (PipelineSpec.Name <$> keptOf (take i declared) (take i statuses)) in
          PipelineStatus.State st = stateOf outputRefs names pipeline.
Proof.
  apply (kept_pipeline_has_resolved_refs noSecrets sampleRequest "openshift-logging"
           enabledCluster).
  - by vm_compute.
  - by vm_compute.
  - by eexists.
Defined.

End k8shandler_facts.

(** ** Errors *)

(** C1, as the code has it.  With no log store the migration returns the
    spec it was given, whatever the spec, and so also when a pipeline refers
    to [default]: the reference stays, no default output is synthesized, and
    the result is a spec, as [MigrateDefaultOutput] has no error result.  Nor
    does a failing secret lookup surface: the output validator of
    [k8shandler] reads a transport error like a lookup that found nothing
    and reported nothing. *)
Theorem no_log_store_returns_spec :
  (∀ spec : migrations.ClusterLogForwarderSpec,
     migrations.MigrateClusterLogForwarderSpec spec None = spec)
  ∧ (∀ (spec : k8shandler.ForwardingSpec) (status : k8shandler.ForwardingStatus),
       k8shandler.gatherAndVerifyOutputRefs (λ _, (None, Some k8shandler.ErrOther)) spec status
       = k8shandler.gatherAndVerifyOutputRefs (λ _, (None, None)) spec status).
Proof.
  split.
  - apply migrations_facts.MigrateDefaultOutput_nil.
  - apply k8shandler_facts.transport_error_dropped_gather.
Qed.

(** ** The bootstrap under an Elasticsearch log store, in both packages *)

(** C2, as the code has it.  The empty spec under an Elasticsearch log
    store migrates to exactly one pipeline, from the application and the
    infrastructure input to [default], and exactly one output, the
    synthesized default output of type Elasticsearch.  Two pipelines, one
    from the application source and one from the infrastructure source, each
    to the internal default output, together with that one output of type
    Elasticsearch, are what the normalizer of [k8shandler] returns for a
    request without pipelines whose default forwarding is not disabled. *)
Theorem bootstrap_elasticsearch
    (lokiStack : migrations.LokiStackStoreSpec)
    (GetSecret : string → option k8shandler.Secret * option k8shandler.GetError)
    (forwarding : k8shandler.LogForwarding)
    (declared : list k8shandler.OutputSpec.t)
    (namespace : string) (annotations : gmap string string) :
  (let migrated :=
     migrations.MigrateClusterLogForwarderSpec (migrations.mkSpec [] [] [] None)
       (Some (migrations.mkLogStoreSpec migrations.LogStoreTypeElasticsearch lokiStack)) in
   migrations.Pipelines migrated
   = [migrations.PipelineSpec.mk "" ["application"; "infrastructure"] ["default"] []]
   ∧ migrations.Outputs migrated
     = [migrations.OutputSpec.mk "default" migrations.OutputTypeElasticsearch
          migrations.LogStoreURL
          (Some (migrations.mkOutputSecretSpec migrations.CollectorSecretName)) None])
  ∧ fst <$> k8shandler.normalizeLogForwarding GetSecret
              (k8shandler.mkRequest (Some forwarding)
                 (k8shandler.mkForwardingSpec false declared []))
              namespace
              (k8shandler.mkClusterLogging annotations
                 (Some (k8shandler.mkLogStoreSpec k8shandler.LogStoreTypeElasticsearch)))
    = Some (k8shandler.mkForwardingSpec false
              [ k8shandler.OutputSpec.mk k8shandler.InternalOutputName
                  k8shandler.OutputTypeElasticsearch k8shandler.LogStoreService
                  (Some (k8shandler.mkOutputSecretSpec k8shandler.CollectorSecretName)) ]
              [ k8shandler.PipelineSpec.mk k8shandler.DefaultAppPipelineName
                  k8shandler.LogSourceTypeApp [k8shandler.InternalOutputName];
                k8shandler.PipelineSpec.mk k8shandler.DefaultInfraPipelineName
                  k8shandler.LogSourceTypeInfra [k8shandler.InternalOutputName] ]).
Proof.
  split.
  - destruct (migrations_facts.bootstrap_migration lokiStack) as (Hp & Ho & _). by split.
  - by apply (k8shandler_facts.normalize_bootstrap GetSecret _ _ _
                (k8shandler.mkLogStoreSpec k8shandler.LogStoreTypeElasticsearch) forwarding).
Qed.

(** * Further properties of the migration *)

Module migrations_more.
Import migrations migrations_spec migrations_facts.

(** ** What the migration leaves alone *)

Lemma bootstrapFor_Inputs ls spec : Inputs (bootstrapFor ls spec) = Inputs spec.
Proof. unfold bootstrapFor. destruct (isEmptySpec spec); [|done]. by case_decide. Qed.

Lemma bootstrapFor_OutputDefaults ls spec :
  OutputDefaultsOf (bootstrapFor ls spec) = OutputDefaultsOf spec.
Proof. unfold bootstrapFor. destruct (isEmptySpec spec); [|done]. by case_decide. Qed.

Lemma isEmptySpec_true spec : isEmptySpec spec = true → spec = mkSpec [] [] [] None.
Proof.
  unfold isEmptySpec. destruct spec as [[|i ?] [|o ?] [|p ?] [d|]]; simpl; try done.
Qed.

(** X1.  The migration never touches the declared inputs nor the output
    defaults, whatever the spec and the log store. *)
Theorem migrate_keeps_inputs_and_defaults (spec : ClusterLogForwarderSpec)
    (logStore : option LogStoreSpec) :
  Inputs (MigrateClusterLogForwarderSpec spec logStore) = Inputs spec
  ∧ OutputDefaultsOf (MigrateClusterLogForwarderSpec spec logStore) = OutputDefaultsOf spec.
Proof.
  unfold MigrateClusterLogForwarderSpec. destruct logStore as [ls|].
  - destruct (decide (LogStoreType ls = LogStoreTypeLokiStack)) as [Hty|Hty].
    + rewrite MigrateDefaultOutput_lokistack by done. simpl.
      unfold bootstrapPipelines. by destruct (isEmptySpec spec).
    + rewrite MigrateDefaultOutput_single by done. cbn zeta.
      case_decide; simpl; by rewrite bootstrapFor_Inputs, bootstrapFor_OutputDefaults.
  - by rewrite MigrateDefaultOutput_nil.
Qed.

(** X2.  A spec that is not empty and in which no pipeline refers to [default]
    is returned unchanged, under any log store and under none. *)
Theorem migrate_without_default_reference (spec : ClusterLogForwarderSpec)
    (logStore : option LogStoreSpec) :
  isEmptySpec spec = false →
  ¬ refersTo OutputNameDefault (Pipelines spec) →
  MigrateClusterLogForwarderSpec spec logStore = spec.
Proof.
  intros He Href. unfold MigrateClusterLogForwarderSpec. destruct logStore as [ls|].
  - destruct (decide (LogStoreType ls = LogStoreTypeLokiStack)) as [Hty|Hty].
    + rewrite MigrateDefaultOutput_lokistack by done. cbn zeta.
      unfold bootstrapPipelines, needOutput. rewrite He.
      destruct (fanOut_fixed (Pipelines spec)) as [-> ->].
      { intros c Hc Hdef. apply Href. by exists c. }
      simpl. unfold rangeKeys. rewrite map_to_list_empty. simpl.
      unfold sortByName, merge_sort. simpl. rewrite app_nil_r. by destruct spec.
    + rewrite MigrateDefaultOutput_single by done. cbn zeta.
      rewrite bootstrapFor_id by done. by rewrite decide_False.
  - by rewrite MigrateDefaultOutput_nil.
Qed.

Lemma migrate_without_default_reference_witness :
  MigrateClusterLogForwarderSpec
    (mkSpec [] [OutputSpec.mk "remote" "loki" "https://remote:3100" None None]
       [PipelineSpec.mk "p" ["application"] ["remote"] []] None)
    (Some (lokiStore "lokistack-dev"))
  = mkSpec [] [OutputSpec.mk "remote" "loki" "https://remote:3100" None None]
      [PipelineSpec.mk "p" ["application"] ["remote"] []] None.
Proof.
  apply migrate_without_default_reference; [reflexivity|].
  intros (p & [->|[]%elem_of_nil]%elem_of_cons & Hdef). simpl in Hdef.
  apply list_elem_of_singleton in Hdef. discriminate.
Defined.

(** X3.  Of the store type the migration only reads whether it is LokiStack:
    two stores of any other type, Elasticsearch or not, give the same
    migrated spec. *)
Theorem single_store_type_irrelevant (spec : ClusterLogForwarderSpec)
    (ls1 ls2 : LogStoreSpec) :
  LogStoreType ls1 ≠ LogStoreTypeLokiStack →
  LogStoreType ls2 ≠ LogStoreTypeLokiStack →
  MigrateClusterLogForwarderSpec spec (Some ls1)
  = MigrateClusterLogForwarderSpec spec (Some ls2).
Proof.
  intros H1 H2. unfold MigrateClusterLogForwarderSpec.
  rewrite !MigrateDefaultOutput_single by done. cbn zeta.
  destruct (isEmptySpec spec) eqn:He.
  - apply isEmptySpec_true in He as ->. unfold bootstrapFor. simpl.
    destruct (decide (LogStoreType ls1 = _)), (decide (LogStoreType ls2 = _)); by vm_compute.
  - by rewrite !bootstrapFor_id.
Qed.

Lemma single_store_type_irrelevant_witness :
  MigrateClusterLogForwarderSpec mixedSpec
    (Some (mkLogStoreSpec "" (mkLokiStackStoreSpec "")))
  = MigrateClusterLogForwarderSpec mixedSpec (Some elasticStore).
Proof. apply single_store_type_irrelevant; discriminate. Defined.

Lemma replacedList_others d outs :
  OutputSpec.Name d = OutputNameDefault →
  filter (λ o, OutputSpec.Name o ≠ OutputNameDefault) (replacedList d outs)
  = filter (λ o, OutputSpec.Name o ≠ OutputNameDefault) outs.
Proof.
  revert d. induction outs as [|o outs IH]; intros d Hd; [done|].
  cbn [replacedList]. case_decide as Ho.
  - rewrite !filter_cons_False by (rewrite ?absorb_Name; naive_solver).
    apply IH. by rewrite absorb_Name.
  - rewrite !filter_cons_True by done. by rewrite IH.
Qed.

Lemma resolveDefault_others defaults outs :
  filter (λ o, OutputSpec.Name o ≠ OutputNameDefault) (resolveDefault defaults outs)
  = filter (λ o, OutputSpec.Name o ≠ OutputNameDefault) outs.
Proof.
  pose proof (NewDefaultOutput_Name defaults) as Hd.
  unfold resolveDefault. destruct (declaresDefault outs) eqn:Hdecl.
  - by apply replacedList_others.
  - destruct (replacedList_undeclared (NewDefaultOutput defaults) outs Hdecl) as [-> ->].
    rewrite filter_app, filter_cons_False by naive_solver. by rewrite app_nil_r.
Qed.

(** X4.  The migration never drops, changes or reorders a declared output that
    is not named [default]: these outputs come first, in their order, among
    the outputs of the migrated spec that are not named [default], and under
    a store that is not LokiStack they are all of them. *)
Theorem migrate_keeps_declared_outputs (spec : ClusterLogForwarderSpec)
    (logStore : option LogStoreSpec) :
  let others := filter (λ o, OutputSpec.Name o ≠ OutputNameDefault) in
  others (Outputs spec)
    `prefix_of` others (Outputs (MigrateClusterLogForwarderSpec spec logStore))
  ∧ ((∀ ls, logStore = Some ls → LogStoreType ls ≠ LogStoreTypeLokiStack) →
     others (Outputs (MigrateClusterLogForwarderSpec spec logStore))
     = others (Outputs spec)).
Proof.
  intros others. unfold MigrateClusterLogForwarderSpec.
  assert (Hsingle : ∀ ls, LogStoreType ls ≠ LogStoreTypeLokiStack →
            others (Outputs (MigrateDefaultOutput spec (Some ls))) = others (Outputs spec)).
  { intros ls Hty. rewrite MigrateDefaultOutput_single by done. cbn zeta.
    assert (H0 : others (Outputs (bootstrapFor ls spec)) = others (Outputs spec)).
    { unfold bootstrapFor. destruct (isEmptySpec spec) eqn:He; [|done].
      apply isEmptySpec_true in He as ->. by case_decide. }
    case_decide; [|done]. simpl. subst others. cbn beta. by rewrite resolveDefault_others. }
  destruct logStore as [ls|].
  - destruct (decide (LogStoreType ls = LogStoreTypeLokiStack)) as [Hty|Hty].
    + split; [|intros Hno; by destruct (Hno ls)].
      rewrite MigrateDefaultOutput_lokistack by done. simpl.
      rewrite bootstrapPipelines_Outputs. subst others. cbn beta. rewrite filter_app.
      by apply prefix_app_r.
    + rewrite Hsingle by done. done.
  - by rewrite MigrateDefaultOutput_nil.
Qed.

(** X5.  Under a LokiStack store no pipeline of the migrated spec refers to
    [default], and the migration adds no output named [default]. *)
Theorem lokistack_leaves_no_default_reference (ls : LogStoreSpec)
    (spec : ClusterLogForwarderSpec) :
  LogStoreType ls = LogStoreTypeLokiStack →
  (∀ p, p ∈ Pipelines (MigrateClusterLogForwarderSpec spec (Some ls)) →
        OutputNameDefault ∉ PipelineSpec.OutputRefs p)
  ∧ defaultCount (Outputs (MigrateClusterLogForwarderSpec spec (Some ls)))
    = defaultCount (Outputs spec).
Proof.
  intros Hty. unfold MigrateClusterLogForwarderSpec.
  rewrite MigrateDefaultOutput_lokistack by done. simpl. split.
  - intros c (p & Hc & _)%list_elem_of_bind. by eapply fanOutOf_no_default.
  - rewrite defaultCount_app, defaultCount_synthesized, bootstrapPipelines_Outputs. lia.
Qed.

Lemma lokistack_leaves_no_default_reference_witness :
  (∀ p, p ∈ Pipelines (MigrateClusterLogForwarderSpec mixedSpec
                          (Some (lokiStore "lokistack-dev"))) →
        OutputNameDefault ∉ PipelineSpec.OutputRefs p)
  ∧ defaultCount (Outputs (MigrateClusterLogForwarderSpec mixedSpec
                             (Some (lokiStore "lokistack-dev"))))
    = defaultCount (Outputs mixedSpec).
Proof. by apply (lokistack_leaves_no_default_reference (lokiStore "lokistack-dev") mixedSpec). Defined.

Lemma migrate_keeps_declared_outputs_witness :
  filter (λ o, OutputSpec.Name o ≠ OutputNameDefault)
    (Outputs (MigrateClusterLogForwarderSpec mixedSpec (Some elasticStore)))
  = filter (λ o, OutputSpec.Name o ≠ OutputNameDefault) (Outputs mixedSpec).
Proof.
  apply (proj2 (migrate_keeps_declared_outputs mixedSpec (Some elasticStore))).
  intros ls [= <-]. discriminate.
Defined.

(** ** The fan-out leaves no dangling reference of its own *)

(** X6.  Under a LokiStack store every output reference of a migrated pipeline
    is either the name of an output of the migrated spec, or a reference,
    other than [default], that a pipeline already had before the fan-out. *)
Theorem lokistack_rewritten_refs_resolve (ls : LogStoreSpec)
    (spec : ClusterLogForwarderSpec) (c : PipelineSpec.t) (r : string) :
  LogStoreType ls = LogStoreTypeLokiStack →
  c ∈ Pipelines (MigrateClusterLogForwarderSpec spec (Some ls)) →
  r ∈ PipelineSpec.OutputRefs c →
  (∃ o, o ∈ Outputs (MigrateClusterLogForwarderSpec spec (Some ls)) ∧ OutputSpec.Name o = r)
  ∨ (r ≠ OutputNameDefault
     ∧ ∃ p, p ∈ Pipelines (bootstrapPipelines spec) ∧ r ∈ PipelineSpec.OutputRefs p).
Proof.
  intros Hty. unfold MigrateClusterLogForwarderSpec.
  rewrite MigrateDefaultOutput_lokistack by done. simpl.
  set (spec0 := bootstrapPipelines spec).
  intros (p & Hc & Hp)%list_elem_of_bind Hr. unfold fanOutOf in Hc.
  destruct (decide (OutputNameDefault ∈ PipelineSpec.OutputRefs p)) as [Hdef|Hdef].
  - unfold clonesOf in Hc. apply elem_of_lookup_imap in Hc as (i & input & -> & Hi).
    rewrite clonePipeline_OutputRefs in Hr.
    apply list_elem_of_fmap in Hr as (o & -> & Ho). unfold rewriteRef.
    destruct (decide (o = OutputNameDefault)) as [->|Hne].
    + left. exists (tenantOutput (Some ls) OpenshiftNS spec0 input). split; [|done].
      apply elem_of_app. right. unfold sortByName.
      eapply elem_of_Permutation_proper; [apply merge_sort_Permutation|].
      apply list_elem_of_fmap. exists input. split; [done|].
      apply elem_of_needOutput. exists p. split_and!; [done|done|].
      by eapply list_elem_of_lookup_2.
    + right. split; [done|]. by exists p.
  - apply list_elem_of_singleton in Hc as ->. right. split; [|by exists p].
    intros ->. done.
Qed.

Lemma lokistack_rewritten_refs_resolve_witness :
  (∃ o, o ∈ Outputs (MigrateClusterLogForwarderSpec mixedSpec (Some (lokiStore "lokistack-dev")))
        ∧ OutputSpec.Name o = "default-loki-audit")
  ∨ ("default-loki-audit" ≠ OutputNameDefault
     ∧ ∃ p, p ∈ Pipelines (bootstrapPipelines mixedSpec)
            ∧ "default-loki-audit" ∈ PipelineSpec.OutputRefs p).
Proof.
  apply (lokistack_rewritten_refs_resolve (lokiStore "lokistack-dev") mixedSpec
           (PipelineSpec.mk "mixed-1" ["audit"] ["remote"; "default-loki-audit"] [])).
  - reflexivity.
  - vm_compute. right. left.
  - right. left.
Defined.

(** ** The resolved default output *)

Lemma absorb_fields d o :
  OutputSpec.Type_ (absorb d o) = OutputSpec.Type_ d
  ∧ OutputSpec.URL (absorb d o) = OutputSpec.URL d
  ∧ OutputSpec.Secret (absorb d o) = OutputSpec.Secret d.
Proof. unfold absorb. by destruct (OutputSpec.Elasticsearch o). Qed.

Lemma NewDefaultOutput_fixed defaults : fixedDefaultFields (NewDefaultOutput defaults).
Proof. unfold NewDefaultOutput. by destruct defaults as [[[e|]]|]. Qed.

Lemma absorb_fixed d o : fixedDefaultFields d → fixedDefaultFields (absorb d o).
Proof.
  unfold fixedDefaultFields. destruct (absorb_fields d o) as (-> & -> & ->). done.
Qed.

Lemma replacedList_fixed d outs o :
  OutputSpec.Name d = OutputNameDefault → fixedDefaultFields d →
  o ∈ replacedList d outs → OutputSpec.Name o = OutputNameDefault → fixedDefaultFields o.
Proof.
  revert d. induction outs as [|o' outs IH]; intros d Hd Hfix; [by intros ?%elem_of_nil|].
  cbn [replacedList]. case_decide as Ho'.
  - intros [->|Hin]%elem_of_cons Hname; [by apply absorb_fixed|].
    eapply (IH (absorb d o')); [by rewrite absorb_Name|by apply absorb_fixed|done|done].
  - intros [->|Hin]%elem_of_cons Hname; [by destruct Ho'|]. by apply (IH d).
Qed.

Lemma finalDefault_fixed d outs : fixedDefaultFields d → fixedDefaultFields (finalDefault d outs).
Proof.
  revert d. induction outs as [|o outs IH]; intros d Hfix; [done|].
  cbn [finalDefault]. case_decide; apply IH; [by apply absorb_fixed|done].
Qed.

(** X7.  Under a store that is not LokiStack, when some pipeline refers to
    [default], the migrated spec has an output named [default], and every
    output of that name has the operator's type, URL and secret, whatever the
    declared output of that name said. *)
Theorem default_output_fields_are_fixed (ls : LogStoreSpec) (spec : ClusterLogForwarderSpec) :
  LogStoreType ls ≠ LogStoreTypeLokiStack →
  refersTo OutputNameDefault (Pipelines spec) →
  let outs := Outputs (MigrateClusterLogForwarderSpec spec (Some ls)) in
  (∃ o, o ∈ outs ∧ OutputSpec.Name o = OutputNameDefault)
  ∧ ∀ o, o ∈ outs → OutputSpec.Name o = OutputNameDefault →
      OutputSpec.Type_ o = OutputTypeElasticsearch
      ∧ OutputSpec.URL o = LogStoreURL
      ∧ OutputSpec.Secret o = Some (mkOutputSecretSpec CollectorSecretName).
Proof.
  intros Hty Href. unfold MigrateClusterLogForwarderSpec.
  rewrite MigrateDefaultOutput_single by done. cbn zeta.
  rewrite bootstrapFor_id.
  2:{ destruct Href as (p & Hp & _). by eapply isEmptySpec_pipelines. }
  rewrite decide_True by done. simpl. split.
  - pose proof (resolveDefault_declares (OutputDefaultsOf spec) (Outputs spec)) as Hd.
    apply bool_decide_eq_true in Hd. apply list_elem_of_fmap in Hd as (o & Hname & Ho).
    by exists o.
  - pose proof (NewDefaultOutput_Name (OutputDefaultsOf spec)) as Hd.
    pose proof (NewDefaultOutput_fixed (OutputDefaultsOf spec)) as Hfix.
    intros o Ho Hname. unfold resolveDefault in Ho.
    destruct (declaresDefault (Outputs spec)).
    + by apply (replacedList_fixed (NewDefaultOutput (OutputDefaultsOf spec)) (Outputs spec)).
    + apply elem_of_app in Ho as [Ho|Ho].
      * by apply (replacedList_fixed (NewDefaultOutput (OutputDefaultsOf spec)) (Outputs spec)).
      * apply list_elem_of_singleton in Ho as ->. by apply finalDefault_fixed.
Qed.

Lemma default_output_fields_are_fixed_witness :
  let spec :=
    mkSpec [] [OutputSpec.mk "default" "syslog" "udp://mine:514" None None]
      [PipelineSpec.mk "p" ["application"] ["default"] []] None in
  let outs := Outputs (MigrateClusterLogForwarderSpec spec (Some elasticStore)) in
  (∃ o, o ∈ outs ∧ OutputSpec.Name o = OutputNameDefault)
  ∧ ∀ o, o ∈ outs → OutputSpec.Name o = OutputNameDefault →
      OutputSpec.Type_ o = OutputTypeElasticsearch
      ∧ OutputSpec.URL o = LogStoreURL
      ∧ OutputSpec.Secret o = Some (mkOutputSecretSpec CollectorSecretName).
Proof.
  apply (default_output_fields_are_fixed elasticStore); [discriminate|].
  exists (PipelineSpec.mk "p" ["application"] ["default"] []). split; by left.
Defined.

Lemma replacedList_length d outs : length (replacedList d outs) = length outs.
Proof.
  revert d. induction outs as [|o outs IH]; intros d; [done|].
  cbn [replacedList]. case_decide; simpl; by rewrite IH.
Qed.

Lemma replacedList_lookup d outs i o :
  outs !! i = Some o →
  replacedList d outs !! i
  = Some (if decide (OutputSpec.Name o = OutputNameDefault)
          then absorb (finalDefault d (take i outs)) o else o).
Proof.
  revert d i. induction outs as [|o' outs IH]; intros d i; [done|].
  destruct i as [|i]; cbn [replacedList finalDefault take].
  - intros [= ->]. by case_decide.
  - intros Hi. simpl in Hi.
    destruct (decide (OutputSpec.Name o' = OutputNameDefault)); simpl; by rewrite (IH _ _ Hi).
Qed.

Lemma resolveDefault_lookup defaults outs i o :
  outs !! i = Some o →
  resolveDefault defaults outs !! i
  = Some (if decide (OutputSpec.Name o = OutputNameDefault)
          then absorb (finalDefault (NewDefaultOutput defaults) (take i outs)) o else o).
Proof.
  intros Hi. unfold resolveDefault.
  destruct (declaresDefault outs); [by apply replacedList_lookup|].
  rewrite lookup_app_l; [by apply replacedList_lookup|].
  rewrite replacedList_length. by eapply lookup_lt_Some.
Qed.

Lemma migrate_single_outputs ls spec :
  LogStoreType ls ≠ LogStoreTypeLokiStack →
  refersTo OutputNameDefault (Pipelines spec) →
  Outputs (MigrateClusterLogForwarderSpec spec (Some ls))
  = resolveDefault (OutputDefaultsOf spec) (Outputs spec).
Proof.
  intros Hty Href. unfold MigrateClusterLogForwarderSpec.
  rewrite MigrateDefaultOutput_single by done. cbn zeta.
  rewrite bootstrapFor_id.
  2:{ destruct Href as (p & Hp & _). by eapply isEmptySpec_pipelines. }
  by rewrite decide_True.
Qed.

(** X8.  Under a store that is not LokiStack, when some pipeline refers to
    [default], a declared output named [default] that carries an
    Elasticsearch block is replaced, at its position, by a default output
    that carries this same block: the declared block wins over the output
    defaults. *)
Theorem declared_elasticsearch_block_kept (ls : LogStoreSpec)
    (spec : ClusterLogForwarderSpec) (i : nat) (o : OutputSpec.t) (e : Elasticsearch) :
  LogStoreType ls ≠ LogStoreTypeLokiStack →
  refersTo OutputNameDefault (Pipelines spec) →
  Outputs spec !! i = Some o →
  OutputSpec.Name o = OutputNameDefault →
  OutputSpec.Elasticsearch o = Some e →
  Outputs (MigrateClusterLogForwarderSpec spec (Some ls)) !! i
  = Some (OutputSpec.mk OutputNameDefault OutputTypeElasticsearch LogStoreURL
            (Some (mkOutputSecretSpec CollectorSecretName)) (Some e)).
Proof.
  intros Hty Href Hi Hname He. rewrite migrate_single_outputs by done.
  rewrite (resolveDefault_lookup _ _ _ _ Hi), decide_True by done. f_equal.
  set (d := finalDefault _ _).
  assert (Hd : OutputSpec.Name d = OutputNameDefault ∧ fixedDefaultFields d).
  { subst d. split; [|apply finalDefault_fixed, NewDefaultOutput_fixed].
    generalize (NewDefaultOutput_Name (OutputDefaultsOf spec)).
    generalize (NewDefaultOutput (OutputDefaultsOf spec)).
    induction (take i (Outputs spec)) as [|o' l IH]; intros d' Hd'; [done|].
    cbn [finalDefault]. case_decide; apply IH; [by rewrite absorb_Name|done]. }
  destruct Hd as (Hn & Ht & Hu & Hs). unfold absorb. rewrite He.
  unfold OutputSpec.withElasticsearch. by rewrite Hn, Ht, Hu, Hs.
Qed.

Lemma declared_elasticsearch_block_kept_witness :
  let e := mkElasticsearch "kubernetes.labels.app" "nologformat" in
  let spec :=
    mkSpec [] [OutputSpec.mk "default" "" "" None (Some e)]
      [PipelineSpec.mk "p" ["application"] ["default"] []]
      (Some (mkOutputDefaults (Some (mkElasticsearch "other" "other")))) in
  Outputs (MigrateClusterLogForwarderSpec spec (Some elasticStore)) !! 0
  = Some (OutputSpec.mk OutputNameDefault OutputTypeElasticsearch LogStoreURL
            (Some (mkOutputSecretSpec CollectorSecretName)) (Some e)).
Proof.
  intros e spec.
  apply (declared_elasticsearch_block_kept elasticStore spec 0
           (OutputSpec.mk "default" "" "" None (Some e)) e);
    [discriminate| |reflexivity|reflexivity|reflexivity].
  exists (PipelineSpec.mk "p" ["application"] ["default"] []). split; by left.
Defined.

Lemma unblocked_replacedList d outs :
  (∀ o, o ∈ outs → OutputSpec.Name o = OutputNameDefault → OutputSpec.Elasticsearch o = None) →
  finalDefault d outs = d
  ∧ ∀ o, o ∈ replacedList d outs → OutputSpec.Name o = OutputNameDefault →
         OutputSpec.Name d = OutputNameDefault → o = d.
Proof.
  induction outs as [|o' outs IH]; intros Hno; [split; [done|by intros ? ?%elem_of_nil]|].
  destruct IH as [Hfin Hall]. { intros o Ho. apply Hno. by right. }
  cbn [finalDefault replacedList]. case_decide as Ho'.
  - assert (Habs : absorb d o' = d).
    { unfold absorb. rewrite (Hno o'); [done|by left|done]. }
    rewrite Habs. split; [done|]. intros o [->|Hin]%elem_of_cons Hname Hd; [done|].
    by apply Hall.
  - split; [done|]. intros o [->|Hin]%elem_of_cons Hname Hd; [by destruct Ho'|].
    by apply Hall.
Qed.

(** X9.  Under a store that is not LokiStack, when some pipeline refers to
    [default] and no declared output named [default] carries an
    Elasticsearch block, every output named [default] of the migrated spec
    carries the block of the output defaults, and none when there are no
    output defaults. *)
Theorem defaults_elasticsearch_block_used (ls : LogStoreSpec)
    (spec : ClusterLogForwarderSpec) :
  LogStoreType ls ≠ LogStoreTypeLokiStack →
  refersTo OutputNameDefault (Pipelines spec) →
  (∀ o, o ∈ Outputs spec → OutputSpec.Name o = OutputNameDefault →
        OutputSpec.Elasticsearch o = None) →
  ∀ o, o ∈ Outputs (MigrateClusterLogForwarderSpec spec (Some ls)) →
       OutputSpec.Name o = OutputNameDefault →
       OutputSpec.Elasticsearch o = OutputDefaultsOf spec ≫= DefaultsElasticsearch.
Proof.
  intros Hty Href Hno o. rewrite migrate_single_outputs by done.
  pose proof (NewDefaultOutput_Name (OutputDefaultsOf spec)) as Hd.
  destruct (unblocked_replacedList (NewDefaultOutput (OutputDefaultsOf spec)) _ Hno)
    as [Hfin Hall].
  assert (Hes : OutputSpec.Elasticsearch (NewDefaultOutput (OutputDefaultsOf spec))
                = OutputDefaultsOf spec ≫= DefaultsElasticsearch).
  { unfold NewDefaultOutput. by destruct (OutputDefaultsOf spec) as [[[e|]]|]. }
  unfold resolveDefault. rewrite Hfin.
  destruct (declaresDefault (Outputs spec)).
  - intros Ho Hname. by rewrite (Hall o Ho Hname Hd).
  - intros [Ho|Ho]%elem_of_app Hname.
    + by rewrite (Hall o Ho Hname Hd).
    + by apply list_elem_of_singleton in Ho as ->.
Qed.

Lemma defaults_elasticsearch_block_used_witness :
  let e := mkElasticsearch "kubernetes.labels.app" "nologformat" in
  let spec :=
    mkSpec [] [] [PipelineSpec.mk "p" ["application"] ["default"] []]
      (Some (mkOutputDefaults (Some e))) in
  LogStoreType elasticStore ≠ LogStoreTypeLokiStack
  ∧ ∀ o, o ∈ Outputs (MigrateClusterLogForwarderSpec spec (Some elasticStore)) →
         OutputSpec.Name o = OutputNameDefault →
         OutputSpec.Elasticsearch o = Some e.
Proof.
  intros e spec. split; [discriminate|].
  apply (defaults_elasticsearch_block_used elasticStore spec); [discriminate| |].
  - exists (PipelineSpec.mk "p" ["application"] ["default"] []). split; by left.
  - by intros o ?%elem_of_nil.
Defined.

(** X10.  The replacement loop keeps one [defaultOutput] across its iterations:
    a declared output named [default] without Elasticsearch block that comes
    after one with a block, with no other block in between, is replaced by a
    default output carrying the earlier block. *)
Theorem elasticsearch_block_carried_over (ls : LogStoreSpec) (spec : ClusterLogForwarderSpec)
    (l1 l2 l3 : list OutputSpec.t) (o1 o2 : OutputSpec.t) (e : Elasticsearch) :
  LogStoreType ls ≠ LogStoreTypeLokiStack →
  refersTo OutputNameDefault (Pipelines spec) →
  Outputs spec = l1 ++ o1 :: l2 ++ o2 :: l3 →
  OutputSpec.Name o1 = OutputNameDefault → OutputSpec.Elasticsearch o1 = Some e →
  (∀ o, o ∈ l2 → OutputSpec.Name o = OutputNameDefault → OutputSpec.Elasticsearch o = None) →
  OutputSpec.Name o2 = OutputNameDefault → OutputSpec.Elasticsearch o2 = None →
  ∃ o, Outputs (MigrateClusterLogForwarderSpec spec (Some ls)) !! (length l1 + S (length l2))
       = Some o
       ∧ OutputSpec.Elasticsearch o = Some e.
Proof.
  intros Hty Href Houts Hn1 He1 Hl2 Hn2 He2. rewrite migrate_single_outputs by done.
  assert (Hi : Outputs spec !! (length l1 + S (length l2)) = Some o2).
  { rewrite Houts, lookup_app_r by lia. replace (length l1 + S (length l2) - length l1)
      with (S (length l2)) by lia. simpl. rewrite lookup_app_r by lia.
    by rewrite Nat.sub_diag. }
  rewrite (resolveDefault_lookup _ _ _ _ Hi), decide_True by done.
  eexists. split; [done|]. unfold absorb at 1. rewrite He2.
  assert (Htake : take (length l1 + S (length l2)) (Outputs spec) = l1 ++ o1 :: l2).
  { rewrite Houts. rewrite take_app_ge by lia.
    replace (length l1 + S (length l2) - length l1) with (S (length l2)) by lia.
    simpl. by rewrite take_app_length. }
  rewrite Htake. generalize (NewDefaultOutput (OutputDefaultsOf spec)). intros d.
  assert (Hsplit : ∀ la lb d, finalDefault d (la ++ lb) = finalDefault (finalDefault d la) lb).
  { induction la as [|a la IH]; intros lb d'; [done|].
    cbn [app finalDefault]. case_decide; apply IH. }
  rewrite Hsplit. cbn [finalDefault]. rewrite decide_True by done.
  destruct (unblocked_replacedList (absorb (finalDefault d l1) o1) l2 Hl2) as [-> _].
  unfold absorb. by rewrite He1.
Qed.

Lemma elasticsearch_block_carried_over_witness :
  let e := mkElasticsearch "kubernetes.labels.app" "nologformat" in
  let o1 := OutputSpec.mk "default" "" "" None (Some e) in
  let o2 := OutputSpec.mk "default" "" "" None None in
  let spec := mkSpec [] [o1; o2] [PipelineSpec.mk "p" ["application"] ["default"] []] None in
  ∃ o, Outputs (MigrateClusterLogForwarderSpec spec (Some elasticStore)) !! 1 = Some o
       ∧ OutputSpec.Elasticsearch o = Some e.
Proof.
  intros e o1 o2 spec.
  apply (elasticsearch_block_carried_over elasticStore spec [] [] [] o1 o2 e);
    [discriminate| |reflexivity|reflexivity|reflexivity| |reflexivity|reflexivity].
  - exists (PipelineSpec.mk "p" ["application"] ["default"] []). split; by left.
  - by intros o ?%elem_of_nil.
Defined.

(** ** Names, kinds and URLs of the tenants *)

Lemma lokiStackOutput_inj i j :
  i ∉ clashingInputNames → j ∉ clashingInputNames →
  lokiStackOutput i = lokiStackOutput j → i = j.
Proof.
  unfold clashingInputNames. rewrite !not_elem_of_cons. intros (?&?&?&_) (?&?&?&_).
  unfold lokiStackOutput.
  repeat case_decide; subst; try done; intros Heq;
    apply (inj (String.app "default-")) in Heq; by subst.
Qed.

(** X11.  When no tenant is called [loki-apps], [loki-infra] or [loki-audit], the
    outputs the fan-out synthesizes have pairwise distinct names. *)
Theorem synthesized_names_distinct (logStore : option LogStoreSpec) (namespace : string)
    (spec : ClusterLogForwarderSpec) :
  (∀ k, isTenant spec k → k ∉ clashingInputNames) →
  NoDup (OutputSpec.Name <$> (processPipelinesForLokiStack logStore namespace spec).1).
Proof.
  intros Hclash. rewrite processPipelinesForLokiStack_eq. simpl. fold (needOutput spec).
  unfold sortByName. rewrite merge_sort_Permutation, <-list_fmap_compose.
  apply NoDup_fmap_2_strong; [|apply rangeKeys_NoDup].
  intros i j Hi%elem_of_needOutput Hj%elem_of_needOutput. simpl.
  apply lokiStackOutput_inj; by apply Hclash.
Qed.

Lemma synthesized_names_distinct_witness :
  NoDup (OutputSpec.Name
           <$> (processPipelinesForLokiStack (Some (lokiStore "lokistack-dev")) OpenshiftNS
                  mixedSpec).1).
Proof.
  apply synthesized_names_distinct.
  intros k (p & [->|[]%elem_of_nil]%elem_of_cons & _ & Hk).
  simpl in Hk. unfold clashingInputNames.
  repeat (apply elem_of_cons in Hk as [->|Hk]; [by apply (bool_decide_unpack _)|]).
  by apply elem_of_nil in Hk.
Defined.

(** The reserved input [application] and an input called [loki-apps] get the
    same per-tenant output name. *)
Example lokiStackOutput_clash : lokiStackOutput "application" = lokiStackOutput "loki-apps".
Proof. reflexivity. Qed.

Lemma getInputTypeLoop_skips l1 l2 k :
  (∀ x, x ∈ l1 → InputSpec.Name x = k → ¬ populated x) →
  getInputTypeLoop (l1 ++ l2) k = getInputTypeLoop l2 k.
Proof.
  induction l1 as [|x l1 IH]; intros Hno; [done|].
  cbn [app getInputTypeLoop]. rewrite IH by (intros y Hy; apply Hno; by right).
  case_decide as Hname; [|done].
  assert (Hx : ¬ populated x) by (apply Hno; [by left|done]).
  unfold populated in Hx.
  destruct (InputSpec.Application x), (InputSpec.Infrastructure x), (InputSpec.Audit x);
    try done; destruct Hx; eauto.
Qed.

(** X12.  For a name that is not reserved, the kind is decided by the first
    declared input of that name with a populated source sub-field; inputs of
    that name with nothing populated are passed over. *)
Theorem declared_input_kind (spec : ClusterLogForwarderSpec) (k : string)
    (l1 l2 : list InputSpec.t) (input : InputSpec.t) :
  k ∉ ReservedInputNames →
  Inputs spec = l1 ++ input :: l2 →
  (∀ x, x ∈ l1 → InputSpec.Name x = k → ¬ populated x) →
  InputSpec.Name input = k →
  populated input →
  getInputTypeFromName spec k = kindOf input.
Proof.
  intros Hres Hin Hl1 Hname Hpop. unfold getInputTypeFromName.
  rewrite decide_False by done. rewrite Hin, getInputTypeLoop_skips by done.
  cbn [getInputTypeLoop]. rewrite decide_True by done. unfold kindOf, populated in *.
  destruct (InputSpec.Application input), (InputSpec.Infrastructure input),
    (InputSpec.Audit input); try done.
  destruct Hpop as [[? [=]]|[[? [=]]|[? [=]]]].
Qed.

Lemma declared_input_kind_witness :
  let spec :=
    mkSpec [ InputSpec.mk "my-app" None None None;
             InputSpec.mk "my-app" None (Some mkInfrastructure) (Some mkAudit) ]
      [] [] None in
  getInputTypeFromName spec "my-app" = "infrastructure".
Proof.
  intros spec.
  apply (declared_input_kind spec "my-app" [InputSpec.mk "my-app" None None None] []
           (InputSpec.mk "my-app" None (Some mkInfrastructure) (Some mkAudit))).
  - apply (bool_decide_unpack _). by vm_compute.
  - reflexivity.
  - intros x ->%list_elem_of_singleton _ [[? [=]]|[[? [=]]|[? [=]]]].
  - reflexivity.
  - right. left. by eexists.
Defined.

(** X13.  A name that is not reserved resolves to no kind, the empty string,
    exactly when no declared input of that name has a populated source
    sub-field; and whatever the name, the result is a reserved name or the
    empty string. *)
Theorem unresolved_input_kind (spec : ClusterLogForwarderSpec) (k : string) :
  (getInputTypeFromName spec k ∈ ReservedInputNames ∨ getInputTypeFromName spec k = "")
  ∧ (getInputTypeFromName spec k = ""
     ↔ (k ∉ ReservedInputNames)
       ∧ ∀ x, x ∈ Inputs spec → InputSpec.Name x = k → ¬ populated x).
Proof.
  unfold getInputTypeFromName.
  assert (Hloop : ∀ l,
    (getInputTypeLoop l k = None ∧ ∀ x, x ∈ l → InputSpec.Name x = k → ¬ populated x)
    ∨ (∃ t, getInputTypeLoop l k = Some t ∧ t ∈ ReservedInputNames
            ∧ ∃ x, x ∈ l ∧ InputSpec.Name x = k ∧ populated x)).
  { induction l as [|x l IH]; [left; split; [done|by intros ? ?%elem_of_nil]|].
    cbn [getInputTypeLoop].
    assert (Hrest :
      (getInputTypeLoop l k = None
       ∧ ∀ y, y ∈ l → InputSpec.Name y = k → ¬ populated y)
      ∨ (∃ t, getInputTypeLoop l k = Some t ∧ t ∈ ReservedInputNames
              ∧ ∃ y, y ∈ x :: l ∧ InputSpec.Name y = k ∧ populated y)).
    { destruct IH as [IH|(t & ? & ? & y & ? & ? & ?)]; [by left|right].
      exists t. split_and!; [done|done|]. exists y. split_and!; [by right|done|done]. }
    case_decide as Hname.
    - destruct (InputSpec.Application x) eqn:Ha; [|destruct (InputSpec.Infrastructure x) eqn:Hi;
        [|destruct (InputSpec.Audit x) eqn:Hu]].
      + right. eexists. split_and!; [done|set_solver|]. exists x.
        split_and!; [by left|done|]. left. rewrite Ha. by eexists.
      + right. eexists. split_and!; [done|set_solver|]. exists x.
        split_and!; [by left|done|]. right. left. rewrite Hi. by eexists.
      + right. eexists. split_and!; [done|set_solver|]. exists x.
        split_and!; [by left|done|]. do 2 right. rewrite Hu. by eexists.
      + destruct Hrest as [[Hnone Hall]|Hsome]; [left|by right]. split; [done|].
        intros y [->|Hy]%elem_of_cons Hy'; [|by apply Hall].
        unfold populated. rewrite Ha, Hi, Hu. by intros [[? [=]]|[[? [=]]|[? [=]]]].
    - destruct Hrest as [[Hnone Hall]|Hsome]; [left|by right]. split; [done|].
      intros y [->|Hy]%elem_of_cons Hy'; [done|by apply Hall]. }
  assert (Hne : ∀ t, t ∈ ReservedInputNames → t ≠ "").
  { intros t Ht ->. revert Ht. apply (bool_decide_unpack _). by vm_compute. }
  destruct (decide (k ∈ ReservedInputNames)) as [Hres|Hres].
  - split; [by left|]. split; [intros ->; by destruct (Hne "")|by intros [? _]].
  - destruct (Hloop (Inputs spec)) as [[-> Hall]|(t & -> & Ht & x & Hx & Hxk & Hpop)]; simpl.
    + split; [by right|]. done.
    + split; [by left|]. split; [intros ->; by destruct (Hne "")|].
      intros [_ Hall]. by destruct (Hall x).
Qed.

(** X14.  The tenant URL is not empty exactly when there is a log store with a
    LokiStack name and the tenant is a reserved input name. *)
Theorem LokiStackURL_nonempty (logStore : option LogStoreSpec) (namespace tenant : string) :
  LokiStackURL logStore namespace tenant ≠ ""
  ↔ (∃ ls, logStore = Some ls ∧ LokiStackName (LokiStack ls) ≠ "")
    ∧ tenant ∈ ReservedInputNames.
Proof.
  unfold LokiStackURL, LokiStackGatewayService. destruct logStore as [ls|]; simpl.
  - destruct (decide (LokiStackName (LokiStack ls) = "")) as [Hname|Hname].
    + rewrite decide_True by done. split; [done|]. by intros [(? & [= <-] & ?) _].
    + rewrite decide_False.
      2:{ destruct (LokiStackName (LokiStack ls)); [done|discriminate]. }
      destruct (decide (tenant ∉ ReservedInputNames)) as [Hten|Hten].
      * split; [done|]. by intros [_ ?].
      * split; [|done]. intros _. split; [by exists ls|].
        by destruct (decide (tenant ∈ ReservedInputNames)).
  - split; [done|]. by intros [(? & [=] & _) _].
Qed.

End migrations_more.

(** * Further properties of the normalizer *)

Module k8shandler_more.
Import k8shandler k8shandler_spec k8shandler_facts.

Section request.
Variable GetSecret : string → option Secret * option GetError.

(** ** Which outputs pass *)

Lemma empty_type_unrecognized : "" ∉ outputTypes.
Proof. apply (bool_decide_unpack _). by vm_compute. Qed.

Lemma when_nil {A} (P : Prop) `{Decision P} (x : A) : when P x = [] ↔ ¬ P.
Proof. unfold when. case_decide; naive_solver. Qed.

Lemma verifyOutputSecret_appends output secret status :
  OutputStatus.Conditions (verifyOutputSecret output secret status)
  = OutputStatus.Conditions status ++ sharedKeyConditions output secret.
Proof.
  unfold verifyOutputSecret, sharedKeyConditions. destruct secret as [sec|].
  - case_decide; [by rewrite app_nil_r|].
    destruct (Data sec !! "shared_key"); [by rewrite app_nil_r|done].
  - by rewrite app_nil_r.
Qed.

(** The conditions of the status of a declared output, in the order in
    which the checks add them. *)
Lemma checkOutput_Conditions refs i output :
  OutputStatus.Conditions (checkOutput GetSecret refs i output)
  = nameConditions refs output ++ secretConditions GetSecret output.
Proof.
  unfold checkOutput, nameConditions, secretConditions, when.
  destruct (OutputSpec.Secret output) as [s|].
  - destruct (decide (SecretName s = "")).
    + repeat case_decide; reflexivity.
    + destruct (GetSecret (SecretName s)) as [secret err].
      rewrite verifyOutputSecret_appends. cbn [fst snd].
      destruct (IsNotFound err); repeat case_decide; reflexivity.
  - rewrite app_nil_r. repeat case_decide; reflexivity.
Qed.

(** X15.  The status of a declared output has no condition exactly when the
    output has a name that is not empty, not the internal output name and
    not among the names accepted so far, a recognized type, an endpoint, and
    a secret reference that is either absent or named, not reported missing
    and, for type forward with a secret found, holding [shared_key]. *)
Theorem output_passes_iff (refs : gset string) (i : nat) (output : OutputSpec.t) :
  OutputStatus.Conditions (checkOutput GetSecret refs i output) = []
  ↔ acceptable GetSecret refs output.
Proof.
  pose proof empty_type_unrecognized as Hempty.
  rewrite checkOutput_Conditions, app_nil.
  unfold nameConditions. rewrite !app_nil, !when_nil.
  assert (Hsec : secretConditions GetSecret output = [] ↔ secretAcceptable GetSecret output).
  { unfold secretConditions, secretAcceptable, sharedKeyConditions.
    destruct (OutputSpec.Secret output) as [s|]; [|done].
    case_decide as Hname; [naive_solver|].
    destruct (GetSecret (SecretName s)) as [secret err]. simpl.
    rewrite app_nil. destruct (IsNotFound err); [naive_solver|].
    destruct secret as [sec|]; [|naive_solver].
    case_decide as Hty; [naive_solver|].
    destruct (Data sec !! "shared_key") as [v|] eqn:Hkey.
    - split; [|done]. intros _. split_and!; [done|done|].
      intros _ sec' [= <-]. by rewrite Hkey.
    - split; [by intros [_ [=]]|]. intros (_ & _ & Hall).
      destruct (Hall Hty sec eq_refl) as [v Hv]. by rewrite Hkey in Hv. }
  rewrite Hsec. unfold acceptable.
  destruct (decide (OutputSpec.Type_ output ∈ outputTypes)) as [Hin|Hnin].
  - assert (OutputSpec.Type_ output ≠ "") by (intros Heq; by rewrite Heq in Hin).
    naive_solver.
  - naive_solver.
Qed.

(** ** The accepted outputs *)

(** X16.  The accepted outputs of [gatherAndVerifyOutputRefs] have pairwise
    distinct names, none of them empty and none the internal output name, a
    recognized type and an endpoint; and the accepted-name set is the set of
    their names. *)
Theorem accepted_outputs_well_formed (spec : ForwardingSpec) (status : ForwardingStatus) :
  let '(refs, outputs, _) := gatherAndVerifyOutputRefs GetSecret spec status in
  refs = list_to_set (OutputSpec.Name <$> outputs)
  ∧ NoDup (OutputSpec.Name <$> outputs)
  ∧ Forall (λ o, wellFormedOutput o ∧ OutputSpec.Name o ≠ InternalOutputName) outputs.
Proof.
  unfold gatherAndVerifyOutputRefs.
  generalize (StatusOutputs status). intros statuses0.
  induction (Outputs spec) as [|output declared IH] using rev_ind.
  - simpl. split_and!; [done|constructor|constructor].
  - rewrite range_fold_snoc.
    destruct (range_fold (gatherStep GetSecret) (∅, [], statuses0) declared)
      as [[refs outputs] statuses].
    destruct IH as (Hrefs & Hnodup & Hall). unfold gatherStep.
    case_decide as Hnone; [|done].
    apply length_zero_nil, output_passes_iff in Hnone
      as (Hname & Hint & Huniq & Hty & Hend & _).
    rewrite fmap_app, list_to_set_app_L. split_and!.
    + simpl. rewrite Hrefs. set_solver.
    + apply NoDup_app. split_and!; [done| |apply NoDup_singleton].
      intros n Hn ->%list_elem_of_singleton. apply Huniq. rewrite Hrefs.
      by apply elem_of_list_to_set.
    + apply Forall_app. split; [done|]. by repeat constructor.
Qed.

(** ** The pipeline loop, all passes *)

(** X17.  The pipelines the loop keeps, started from its initial state, have
    pairwise distinct names, none of them empty and none a reserved pipeline
    name, a recognized source type, and at least one output reference, all of
    them accepted-output names; the name set and the source set of the loop
    are the names and the source types of the kept pipelines; and the loop
    has added one status per declared pipeline. *)
Theorem kept_pipelines_well_formed (outputRefs : gset string)
    (statuses0 : list PipelineStatus.t) (declared : list PipelineSpec.t) :
  let st := range_fold (pipelineStep outputRefs) (mkPipelineLoop ∅ ∅ [] statuses0) declared in
  pipelineNames st = list_to_set (PipelineSpec.Name <$> normalizedPipelines st)
  ∧ logSources st = list_to_set (PipelineSpec.SourceType <$> normalizedPipelines st)
  ∧ NoDup (PipelineSpec.Name <$> normalizedPipelines st)
  ∧ Forall (λ p, wellFormedPipeline p
                 ∧ PipelineSpec.Name p ≠ DefaultAppPipelineName
                 ∧ PipelineSpec.Name p ≠ DefaultInfraPipelineName
                 ∧ ∀ r, r ∈ PipelineSpec.OutputRefs p → r ∈ outputRefs)
      (normalizedPipelines st)
  ∧ length (statusPipelines st) = length statuses0 + length declared.
Proof.
  induction declared as [|pipeline declared IH] using rev_ind.
  - simpl. split_and!; [done|done|constructor|constructor|lia].
  - cbn zeta in *. rewrite range_fold_snoc.
    set (st := range_fold _ _ declared) in *.
    destruct IH as (Hnames & Hsrc & Hnodup & Hall & Hlen).
    destruct (decide (passesChecks (pipelineNames st) pipeline
                      ∧ resolved outputRefs (PipelineSpec.OutputRefs pipeline) ≠ []))
      as [[Hpass Hkept]|Hnot].
    + destruct (pipelineStep_kept outputRefs st (length declared) pipeline Hpass Hkept)
        as (status & -> & _). simpl.
      destruct Hpass as (Hname & Happ & Hinfra & Huniq & _ & Hknown).
      rewrite !fmap_app, !list_to_set_app_L, !length_app. simpl. split_and!.
      * rewrite Hnames. set_solver.
      * rewrite Hsrc. set_solver.
      * apply NoDup_app. split_and!; [done| |apply NoDup_singleton].
        intros n Hn ->%list_elem_of_singleton. apply Huniq. rewrite Hnames.
        by apply elem_of_list_to_set.
      * apply Forall_app. split; [done|]. constructor; [|done].
        unfold wellFormedPipeline. simpl. split_and!; try done.
        intros r Hr. unfold resolved in Hr. by apply list_elem_of_filter in Hr as [? _].
      * lia.
    + destruct (pipelineStep_dropped outputRefs st (length declared) pipeline Hnot)
        as (status & -> & _). simpl. rewrite !length_app. simpl. split_and!; try done. lia.
Qed.

(** ** The normalizer, branch by branch *)

Lemma normalize_cases request namespace cluster normalized request' :
  normalizeLogForwarding GetSecret request namespace cluster = Some (normalized, request') →
  let spec := ForwardingSpecOf request in
  (bootstraps cluster spec = true ∧ normalized = bootstrapSpec
   ∧ ∃ forwarding, ForwardingRequest request = Some forwarding
       ∧ request'
         = mkRequest (Some (mkLogForwarding (Some (bootstrapStatus (Status forwarding))))) spec)
  ∨ (bootstraps cluster spec = false
     ∧ (isForwardingEnabled cluster = false ∨ ForwardingRequest request = None)
     ∧ normalized = mkForwardingSpec false [] [] ∧ request' = request)
  ∨ (bootstraps cluster spec = false ∧ isForwardingEnabled cluster = true
     ∧ is_Some (ForwardingRequest request)
     ∧ ∃ refs outputs status loop,
         gatherAndVerifyOutputRefs GetSecret spec emptyForwardingStatus = (refs, outputs, status)
         ∧ loop = range_fold (pipelineStep refs)
                    (mkPipelineLoop ∅ ∅ [] (StatusPipelines status)) (Pipelines spec)
         ∧ normalized
           = mkForwardingSpec (DisableDefaultForwarding spec) outputs (normalizedPipelines loop)
         ∧ request'
           = mkRequest
               (Some (mkLogForwarding
                  (Some (withStatusLogSources (sortedList (logSources loop))
                           (withStatusPipelines (statusPipelines loop) status)))))
               spec).
Proof.
  intros Hrun spec. subst spec. revert Hrun.
  unfold normalizeLogForwarding. fold (bootstraps cluster (ForwardingSpecOf request)).
  intros Hrun.
  destruct (bootstraps cluster (ForwardingSpecOf request)).
  - left. destruct (ForwardingRequest request) as [forwarding|]; [|done].
    injection Hrun as <- <-. split_and!; [done|done|]. by exists forwarding.
  - right. destruct (isForwardingEnabled cluster); simpl in Hrun.
    + destruct (ForwardingRequest request) as [forwarding|] eqn:Hreq.
      * right.
        destruct (gatherAndVerifyOutputRefs GetSecret (ForwardingSpecOf request)
                    emptyForwardingStatus) as [[refs outputs] status] eqn:Hgather.
        injection Hrun as <- <-. split_and!; [done|done|done|].
        exists refs, outputs, status. by eexists.
      * left. injection Hrun as <- <-. split_and!; [done|by right|done|done].
    + left. injection Hrun as <- <-. split_and!; [done|by left|done|done].
Qed.

(** X18.  The normalizer stops on a nil dereference exactly when it takes the
    bootstrap branch, an Elasticsearch log store with default forwarding not
    disabled and no pipeline declared, and the request has no forwarding
    resource; in every other case it returns a spec. *)
Theorem normalize_panics_iff (request : ClusterLoggingRequest) (namespace : string)
    (cluster : ClusterLogging) :
  normalizeLogForwarding GetSecret request namespace cluster = None
  ↔ bootstraps cluster (ForwardingSpecOf request) = true ∧ ForwardingRequest request = None.
Proof.
  unfold normalizeLogForwarding. fold (bootstraps cluster (ForwardingSpecOf request)).
  destruct (bootstraps cluster (ForwardingSpecOf request)).
  - destruct (ForwardingRequest request); naive_solver.
  - destruct (isForwardingEnabled cluster); simpl.
    + destruct (ForwardingRequest request); [|naive_solver].
      destruct (gatherAndVerifyOutputRefs _ _ _) as [[? ?] ?]. naive_solver.
    + naive_solver.
Qed.

(** ** The normalized spec *)

Lemma bootstrapSpec_facts :
  (∀ p, p ∈ Pipelines bootstrapSpec → ∀ r, r ∈ PipelineSpec.OutputRefs p →
        r ∈ OutputSpec.Name <$> Outputs bootstrapSpec)
  ∧ NoDup (OutputSpec.Name <$> Outputs bootstrapSpec)
  ∧ NoDup (PipelineSpec.Name <$> Pipelines bootstrapSpec)
  ∧ Forall wellFormedOutput (Outputs bootstrapSpec)
  ∧ Forall wellFormedPipeline (Pipelines bootstrapSpec).
Proof.
  split_and!.
  - intros p Hp r Hr. simpl in *.
    repeat (apply elem_of_cons in Hp as [->|Hp]; [simpl in Hr; set_solver|]).
    by apply elem_of_nil in Hp.
  - apply (bool_decide_unpack _). by vm_compute.
  - apply (bool_decide_unpack _). by vm_compute.
  - repeat constructor; try discriminate; try (apply (bool_decide_unpack _); by vm_compute).
  - repeat constructor; try discriminate; try (apply (bool_decide_unpack _); by vm_compute).
Qed.

(** The general branch, with what the loops are known to keep. *)
Lemma general_branch spec refs outputs status :
  gatherAndVerifyOutputRefs GetSecret spec emptyForwardingStatus = (refs, outputs, status) →
  let loop := range_fold (pipelineStep refs)
                (mkPipelineLoop ∅ ∅ [] (StatusPipelines status)) (Pipelines spec) in
  refs = list_to_set (OutputSpec.Name <$> outputs)
  ∧ NoDup (OutputSpec.Name <$> outputs)
  ∧ Forall (λ o, wellFormedOutput o ∧ OutputSpec.Name o ≠ InternalOutputName) outputs
  ∧ NoDup (PipelineSpec.Name <$> normalizedPipelines loop)
  ∧ Forall (λ p, wellFormedPipeline p
                 ∧ PipelineSpec.Name p ≠ DefaultAppPipelineName
                 ∧ PipelineSpec.Name p ≠ DefaultInfraPipelineName
                 ∧ ∀ r, r ∈ PipelineSpec.OutputRefs p → r ∈ refs)
      (normalizedPipelines loop).
Proof.
  intros Hgather loop.
  pose proof (accepted_outputs_well_formed spec emptyForwardingStatus) as Hout.
  rewrite Hgather in Hout. destruct Hout as (Hrefs & Hnodup & Hall).
  destruct (kept_pipelines_well_formed refs (StatusPipelines status) (Pipelines spec))
    as (_ & _ & Hpn & Hpall & _).
  by split_and!.
Qed.

(** X19.  Whatever the branch, every output reference of a pipeline of the
    normalized spec is the name of an output of the normalized spec. *)
Theorem normalized_refs_resolve (request : ClusterLoggingRequest) (namespace : string)
    (cluster : ClusterLogging) (normalized : ForwardingSpec)
    (request' : ClusterLoggingRequest) :
  normalizeLogForwarding GetSecret request namespace cluster = Some (normalized, request') →
  ∀ p, p ∈ Pipelines normalized →
  ∀ r, r ∈ PipelineSpec.OutputRefs p → r ∈ OutputSpec.Name <$> Outputs normalized.
Proof.
  intros [Hboot|[Hoff|Hgen]]%normalize_cases.
  - destruct Hboot as (_ & -> & _). apply bootstrapSpec_facts.
  - destruct Hoff as (_ & _ & -> & _). by intros p ?%elem_of_nil.
  - destruct Hgen as (_ & _ & _ & refs & outputs & status & loop & Hgather & -> & -> & _).
    destruct (general_branch _ _ _ _ Hgather) as (Hrefs & _ & _ & _ & Hpall).
    simpl. intros p Hp r Hr. rewrite Forall_forall in Hpall.
    destruct (Hpall p Hp) as (_ & _ & _ & Hin). specialize (Hin r Hr).
    rewrite Hrefs in Hin. by apply elem_of_list_to_set in Hin.
Qed.

(** X20.  Whatever the branch, the outputs of the normalized spec have pairwise
    distinct names, and so have its pipelines. *)
Theorem normalized_names_unique (request : ClusterLoggingRequest) (namespace : string)
    (cluster : ClusterLogging) (normalized : ForwardingSpec)
    (request' : ClusterLoggingRequest) :
  normalizeLogForwarding GetSecret request namespace cluster = Some (normalized, request') →
  NoDup (OutputSpec.Name <$> Outputs normalized)
  ∧ NoDup (PipelineSpec.Name <$> Pipelines normalized).
Proof.
  intros [Hboot|[Hoff|Hgen]]%normalize_cases.
  - destruct Hboot as (_ & -> & _). split; apply bootstrapSpec_facts.
  - destruct Hoff as (_ & _ & -> & _). split; constructor.
  - destruct Hgen as (_ & _ & _ & refs & outputs & status & loop & Hgather & -> & -> & _).
    destruct (general_branch _ _ _ _ Hgather) as (_ & Hon & _ & Hpn & _). by split.
Qed.

(** X21.  Whatever the branch, every output of the normalized spec has a name, a
    recognized type and an endpoint, and every pipeline has a name, a
    recognized source type and at least one output reference. *)
Theorem normalized_entities_well_formed (request : ClusterLoggingRequest)
    (namespace : string) (cluster : ClusterLogging) (normalized : ForwardingSpec)
    (request' : ClusterLoggingRequest) :
  normalizeLogForwarding GetSecret request namespace cluster = Some (normalized, request') →
  Forall wellFormedOutput (Outputs normalized)
  ∧ Forall wellFormedPipeline (Pipelines normalized).
Proof.
  intros [Hboot|[Hoff|Hgen]]%normalize_cases.
  - destruct Hboot as (_ & -> & _). split; apply bootstrapSpec_facts.
  - destruct Hoff as (_ & _ & -> & _). split; constructor.
  - destruct Hgen as (_ & _ & _ & refs & outputs & status & loop & Hgather & -> & -> & _).
    destruct (general_branch _ _ _ _ Hgather) as (_ & _ & Hoall & _ & Hpall). simpl. split.
    + eapply Forall_impl; [exact Hoall|]. by intros o [? _].
    + eapply Forall_impl; [exact Hpall|]. by intros p [? _].
Qed.

(** X22.  The reserved names are the operator's own: the normalized spec is the
    bootstrap spec, or it has no output of the internal output name and no
    pipeline of a default pipeline name. *)
Theorem reserved_names_only_by_bootstrap (request : ClusterLoggingRequest)
    (namespace : string) (cluster : ClusterLogging) (normalized : ForwardingSpec)
    (request' : ClusterLoggingRequest) :
  normalizeLogForwarding GetSecret request namespace cluster = Some (normalized, request') →
  normalized = bootstrapSpec
  ∨ ((∀ o, o ∈ Outputs normalized → OutputSpec.Name o ≠ InternalOutputName)
     ∧ ∀ p, p ∈ Pipelines normalized →
         PipelineSpec.Name p ≠ DefaultAppPipelineName
         ∧ PipelineSpec.Name p ≠ DefaultInfraPipelineName).
Proof.
  intros [Hboot|[Hoff|Hgen]]%normalize_cases.
  - left. by destruct Hboot as (_ & -> & _).
  - right. destruct Hoff as (_ & _ & -> & _). split; by intros ? ?%elem_of_nil.
  - right.
    destruct Hgen as (_ & _ & _ & refs & outputs & status & loop & Hgather & -> & -> & _).
    destruct (general_branch _ _ _ _ Hgather) as (_ & _ & Hoall & _ & Hpall). simpl.
    rewrite Forall_forall in Hoall. rewrite Forall_forall in Hpall. split.
    + intros o Ho. by destruct (Hoall o Ho).
    + intros p Hp. destruct (Hpall p Hp) as (_ & ? & ? & _). by split.
Qed.

(** ** The status *)

Lemma gather_status spec status refs outputs status' :
  gatherAndVerifyOutputRefs GetSecret spec status = (refs, outputs, status') →
  StatusPipelines status' = StatusPipelines status
  ∧ length (StatusOutputs status')
    = length (StatusOutputs status) + length (Outputs spec).
Proof.
  unfold gatherAndVerifyOutputRefs.
  destruct (gather_loop GetSecret (StatusOutputs status) (Outputs spec))
    as (statuses & -> & Hlen & _).
  intros [= _ _ <-]. simpl. split; [done|]. rewrite length_app. lia.
Qed.

Lemma sortedList_facts (sources : gset string) :
  Sorted String.le (sortedList sources)
  ∧ NoDup (sortedList sources)
  ∧ ∀ src, src ∈ sortedList sources ↔ src ∈ sources.
Proof.
  unfold sortedList. split_and!.
  - apply (Sorted_merge_sort String.le).
  - rewrite merge_sort_Permutation. apply NoDup_elements.
  - intros src. rewrite merge_sort_Permutation. apply elem_of_elements.
Qed.

(** X23.  On the general branch the request gets a fresh status with exactly one
    output status per declared output and one pipeline status per declared
    pipeline, and with the source types of the kept pipelines, each once, in
    ascending order, as its log sources. *)
Theorem status_is_complete (request : ClusterLoggingRequest) (namespace : string)
    (cluster : ClusterLogging) (normalized : ForwardingSpec)
    (request' : ClusterLoggingRequest) :
  normalizeLogForwarding GetSecret request namespace cluster = Some (normalized, request') →
  bootstraps cluster (ForwardingSpecOf request) = false →
  isForwardingEnabled cluster = true →
  is_Some (ForwardingRequest request) →
  ∃ status,
    ForwardingRequest request' = Some (mkLogForwarding (Some status))
    ∧ length (StatusOutputs status) = length (Outputs (ForwardingSpecOf request))
    ∧ length (StatusPipelines status) = length (Pipelines (ForwardingSpecOf request))
    ∧ Sorted String.le (StatusLogSources status)
    ∧ NoDup (StatusLogSources status)
    ∧ ∀ src, src ∈ StatusLogSources status
             ↔ ∃ p, p ∈ Pipelines normalized ∧ PipelineSpec.SourceType p = src.
Proof.
  intros [Hboot|[Hoff|Hgen]]%normalize_cases Hb Hen [forwarding Hreq].
  - destruct Hboot as (Hb' & _). congruence.
  - destruct Hoff as (_ & [?|?] & _); congruence.
  - destruct Hgen as (_ & _ & _ & refs & outputs & status & loop & Hgather & Hloop & -> & ->).
    destruct (gather_status _ _ _ _ _ Hgather) as (Hsp & Hso).
    destruct (kept_pipelines_well_formed refs (StatusPipelines status)
                (Pipelines (ForwardingSpecOf request))) as (_ & Hsrc & _ & _ & Hlen).
    rewrite <-Hloop in Hsrc, Hlen.
    destruct (sortedList_facts (logSources loop)) as (Hsorted & Hnodup & Hmem).
    eexists. split; [done|]. simpl. split_and!; try done.
    + rewrite Hlen, Hsp. done.
    + intros src. rewrite Hmem, Hsrc, elem_of_list_to_set, list_elem_of_fmap. naive_solver.
Qed.

(** ** Running the normalizer on its own result *)

Lemma resolved_idem outputRefs declared :
  resolved outputRefs (resolved outputRefs declared) = resolved outputRefs declared.
Proof.
  unfold resolved. induction declared as [|o l IH]; [done|].
  destruct (decide (o ∈ outputRefs)).
  - rewrite !filter_cons_True by done. by rewrite IH.
  - by rewrite filter_cons_False.
Qed.

Lemma gather_fixed statuses0 statuses0' declared :
  let '(refs, outputs, _) :=
    range_fold (gatherStep GetSecret) (∅, [], statuses0) declared in
  ∃ statuses,
    range_fold (gatherStep GetSecret) (∅, [], statuses0') outputs = (refs, outputs, statuses).
Proof.
  induction declared as [|output declared IH] using rev_ind.
  - by eexists.
  - rewrite range_fold_snoc.
    destruct (range_fold (gatherStep GetSecret) (∅, [], statuses0) declared)
      as [[refs outputs] statuses].
    destruct IH as (statuses' & IH). unfold gatherStep at 1.
    case_decide as Hnone; [|by eexists].
    rewrite range_fold_snoc, IH. unfold gatherStep.
    apply length_zero_nil, output_passes_iff in Hnone.
    rewrite decide_True; [by eexists|].
    by apply length_zero_nil, output_passes_iff.
Qed.

Lemma pipelines_fixed outputRefs statuses0 statuses0' declared :
  let st := range_fold (pipelineStep outputRefs) (mkPipelineLoop ∅ ∅ [] statuses0) declared in
  ∃ statuses,
    range_fold (pipelineStep outputRefs) (mkPipelineLoop ∅ ∅ [] statuses0')
      (normalizedPipelines st)
    = mkPipelineLoop (logSources st) (pipelineNames st) (normalizedPipelines st) statuses.
Proof.
  induction declared as [|pipeline declared IH] using rev_ind.
  - by eexists.
  - cbn zeta in *. rewrite range_fold_snoc.
    set (st := range_fold _ _ declared) in *. destruct IH as (statuses & IH).
    destruct (decide (passesChecks (pipelineNames st) pipeline
                      ∧ resolved outputRefs (PipelineSpec.OutputRefs pipeline) ≠ []))
      as [[Hpass Hkept]|Hnot].
    + destruct (pipelineStep_kept outputRefs st (length declared) pipeline Hpass Hkept)
        as (status & -> & _). simpl. rewrite range_fold_snoc, IH.
      set (kept := PipelineSpec.mk _ _ _).
      destruct (pipelineStep_kept outputRefs
                  (mkPipelineLoop (logSources st) (pipelineNames st)
                     (normalizedPipelines st) statuses)
                  (length (normalizedPipelines st)) kept) as (status' & -> & _).
      * done.
      * subst kept. simpl. by rewrite resolved_idem.
      * subst kept. simpl. rewrite resolved_idem. by eexists.
    + destruct (pipelineStep_dropped outputRefs st (length declared) pipeline Hnot)
        as (status & -> & _). simpl. by eexists.
Qed.

Lemma normalize_unfold request namespace cluster :
  normalizeLogForwarding GetSecret request namespace cluster
  = if bootstraps cluster (ForwardingSpecOf request) then
      match ForwardingRequest request with
      | None => None
      | Some req =>
          Some (bootstrapSpec,
                mkRequest (Some (mkLogForwarding (Some (bootstrapStatus (Status req)))))
                  (ForwardingSpecOf request))
      end
    else if negb (isForwardingEnabled cluster)
    then Some (mkForwardingSpec false [] [], request)
    else
      match ForwardingRequest request with
      | None => Some (mkForwardingSpec false [] [], request)
      | Some _ =>
          let '(outputRefs, outputs, status) :=
            gatherAndVerifyOutputRefs GetSecret (ForwardingSpecOf request)
              emptyForwardingStatus in
          let loop :=
            range_fold (pipelineStep outputRefs)
              (mkPipelineLoop ∅ ∅ [] (StatusPipelines status))
              (Pipelines (ForwardingSpecOf request)) in
          Some (mkForwardingSpec (DisableDefaultForwarding (ForwardingSpecOf request))
                  outputs (normalizedPipelines loop),
                mkRequest
                  (Some (mkLogForwarding
                     (Some (withStatusLogSources (sortedList (logSources loop))
                              (withStatusPipelines (statusPipelines loop) status)))))
                  (ForwardingSpecOf request))
      end.
Proof. reflexivity. Qed.

(** X24.  A normalized spec is a fixed point: when neither the first nor the
    second run takes the bootstrap branch, normalizing the normalized spec,
    with the same secrets and the same cluster, returns it unchanged. *)
Theorem normalize_idempotent (request : ClusterLoggingRequest) (namespace : string)
    (cluster : ClusterLogging) (normalized : ForwardingSpec)
    (request' : ClusterLoggingRequest) :
  normalizeLogForwarding GetSecret request namespace cluster = Some (normalized, request') →
  bootstraps cluster (ForwardingSpecOf request) = false →
  bootstraps cluster normalized = false →
  fst <$> normalizeLogForwarding GetSecret
            (mkRequest (ForwardingRequest request') normalized) namespace cluster
  = Some normalized.
Proof.
  intros [Hboot|[Hoff|Hgen]]%normalize_cases Hb Hb'.
  - destruct Hboot as (Hb1 & _). congruence.
  - destruct Hoff as (_ & Hwhy & -> & ->). rewrite normalize_unfold.
    cbn [ForwardingSpecOf ForwardingRequest]. rewrite Hb'.
    destruct Hwhy as [->| ->]; [done|]. by destruct (isForwardingEnabled cluster).
  - destruct Hgen as (_ & Hen & _ & refs & outputs & status & loop & Hgather & Hloop & -> & ->).
    rewrite normalize_unfold. cbn [ForwardingSpecOf ForwardingRequest].
    rewrite Hb', Hen. cbn [negb DisableDefaultForwarding Outputs Pipelines].
    pose proof (gather_fixed (StatusOutputs emptyForwardingStatus) []
                  (Outputs (ForwardingSpecOf request))) as Hfix.
    unfold gatherAndVerifyOutputRefs in Hgather |- *.
    destruct (range_fold (gatherStep GetSecret) _ (Outputs (ForwardingSpecOf request)))
      as [[refs0 outputs0] statuses0].
    injection Hgather as <- <- <-. destruct Hfix as (statuses1 & Hfix).
    cbn [Outputs StatusOutputs emptyForwardingStatus]. rewrite Hfix.
    destruct (pipelines_fixed refs0 [] [] (Pipelines (ForwardingSpecOf request)))
      as (statuses2 & Hpfix).
    simpl in Hloop. rewrite <-Hloop in Hpfix. simpl. rewrite Hpfix. done.
Qed.

(** X25.  The re-entrancy of the bootstrap: when forwarding is enabled,
    normalizing the result of a bootstrap run drops its output and both its
    pipelines, for their reserved names, and returns the empty spec. *)
Theorem bootstrap_result_is_dropped (request : ClusterLoggingRequest) (namespace : string)
    (cluster : ClusterLogging) (normalized : ForwardingSpec)
    (request' : ClusterLoggingRequest) :
  normalizeLogForwarding GetSecret request namespace cluster = Some (normalized, request') →
  bootstraps cluster (ForwardingSpecOf request) = true →
  isForwardingEnabled cluster = true →
  fst <$> normalizeLogForwarding GetSecret
            (mkRequest (ForwardingRequest request') normalized) namespace cluster
  = Some (mkForwardingSpec false [] []).
Proof.
  intros [Hboot|[Hoff|Hgen]]%normalize_cases Hb Hen.
  2:{ destruct Hoff as (Hb' & _). congruence. }
  2:{ destruct Hgen as (Hb' & _). congruence. }
  destruct Hboot as (_ & -> & forwarding & _ & ->).
  rewrite normalize_unfold. cbn [ForwardingSpecOf ForwardingRequest].
  assert (Hb' : bootstraps cluster bootstrapSpec = false).
  { unfold bootstraps. simpl. by rewrite andb_false_r. }
  rewrite Hb', Hen. cbn [negb].
  unfold gatherAndVerifyOutputRefs, range_fold. simpl. unfold gatherStep.
  case_decide as Hnone.
  { apply length_zero_nil, output_passes_iff in Hnone as (_ & Hint & _). done. }
  simpl.
  match goal with |- context [pipelineStep ?refs ?st 0 ?p] =>
    destruct (pipelineStep_dropped refs st 0 p) as (status1 & -> & _) end.
  { intros [(_ & Hne & _) _]. done. }
  match goal with |- context [pipelineStep ?refs ?st 1 ?p] =>
    destruct (pipelineStep_dropped refs st 1 p) as (status2 & -> & _) end.
  { intros [(_ & _ & Hne & _) _]. done. }
  done.
Qed.

End request.

(** ** Concrete runs *)

Lemma sampleResult_run :
  normalizeLogForwarding noSecrets sampleRequest "openshift-logging" enabledCluster
  = Some (sampleResult.1, sampleResult.2).
Proof. by vm_compute. Qed.

Lemma bareResult_run :
  normalizeLogForwarding noSecrets bareRequest "openshift-logging" elasticCluster
  = Some (bareResult.1, bareResult.2).
Proof. by vm_compute. Qed.

Lemma normalized_refs_resolve_witness :
  normalizeLogForwarding noSecrets sampleRequest "openshift-logging" enabledCluster
  = Some (sampleResult.1, sampleResult.2)
  ∧ ∀ p, p ∈ Pipelines sampleResult.1 →
    ∀ r, r ∈ PipelineSpec.OutputRefs p → r ∈ OutputSpec.Name <$> Outputs sampleResult.1.
Proof.
  split; [by vm_compute|].
  apply (normalized_refs_resolve noSecrets sampleRequest "openshift-logging" enabledCluster
           sampleResult.1 sampleResult.2).
  by vm_compute.
Defined.

Lemma normalized_names_unique_witness :
  NoDup (OutputSpec.Name <$> Outputs sampleResult.1)
  ∧ NoDup (PipelineSpec.Name <$> Pipelines sampleResult.1).
Proof.
  apply (normalized_names_unique noSecrets sampleRequest "openshift-logging" enabledCluster
           sampleResult.1 sampleResult.2).
  by vm_compute.
Defined.

Lemma normalized_entities_well_formed_witness :
  Forall wellFormedOutput (Outputs sampleResult.1)
  ∧ Forall wellFormedPipeline (Pipelines sampleResult.1).
Proof.
  apply (normalized_entities_well_formed noSecrets sampleRequest "openshift-logging"
           enabledCluster sampleResult.1 sampleResult.2).
  by vm_compute.
Defined.

Lemma reserved_names_only_by_bootstrap_witness :
  bareResult.1 = bootstrapSpec
  ∨ ((∀ o, o ∈ Outputs bareResult.1 → OutputSpec.Name o ≠ InternalOutputName)
     ∧ ∀ p, p ∈ Pipelines bareResult.1 →
         PipelineSpec.Name p ≠ DefaultAppPipelineName
         ∧ PipelineSpec.Name p ≠ DefaultInfraPipelineName).
Proof.
  apply (reserved_names_only_by_bootstrap noSecrets bareRequest "openshift-logging"
           elasticCluster bareResult.1 bareResult.2).
  by vm_compute.
Defined.

Lemma status_is_complete_witness :
  ∃ status,
    ForwardingRequest sampleResult.2 = Some (mkLogForwarding (Some status))
    ∧ length (StatusOutputs status) = length (Outputs (ForwardingSpecOf sampleRequest))
    ∧ length (StatusPipelines status) = length (Pipelines (ForwardingSpecOf sampleRequest))
    ∧ Sorted String.le (StatusLogSources status)
    ∧ NoDup (StatusLogSources status)
    ∧ ∀ src, src ∈ StatusLogSources status
             ↔ ∃ p, p ∈ Pipelines sampleResult.1 ∧ PipelineSpec.SourceType p = src.
Proof.
  apply (status_is_complete noSecrets sampleRequest "openshift-logging" enabledCluster
           sampleResult.1 sampleResult.2).
  - by vm_compute.
  - by vm_compute.
  - by vm_compute.
  - by eexists.
Defined.

Lemma normalize_idempotent_witness :
  fst <$> normalizeLogForwarding noSecrets
            (mkRequest (ForwardingRequest sampleResult.2) sampleResult.1)
            "openshift-logging" enabledCluster
  = Some sampleResult.1.
Proof.
  apply (normalize_idempotent noSecrets sampleRequest "openshift-logging" enabledCluster
           sampleResult.1 sampleResult.2); by vm_compute.
Defined.

Lemma bootstrap_result_is_dropped_witness :
  fst <$> normalizeLogForwarding noSecrets
            (mkRequest (ForwardingRequest bareResult.2) bareResult.1)
            "openshift-logging" elasticCluster
  = Some (mkForwardingSpec false [] []).
Proof.
  apply (bootstrap_result_is_dropped noSecrets bareRequest "openshift-logging" elasticCluster
           bareResult.1 bareResult.2); by vm_compute.
Defined.

End k8shandler_more.
